(** * Vulkan-Foundations: device selection, swapchain negotiation and the
    frame protocol of [hello_triangle_application] (main.cpp)

  The development embeds these parts of main.cpp:
  - [Selector]: [find_queue_families], [check_device_extension_support],
    [is_device_suitable], [rate_device_suitability] and
    [pick_physical_device] (with the [std::multimap] it sorts candidates in);
  - [Negotiator]: [choose_swap_extent] and the image count computed at the
    start of [create_swap_chain];
  - [Sync]: [create_sync_objects], [draw_frame] and [main_loop] as programs
    over the Vulkan entry points they call, run against a model of the
    device (fences and submitted batches);
  - [Setup]: [check_validation_layer_support], [choose_swap_surface_format],
    [choose_swap_present_mode], the create info of [create_swap_chain] and
    the queue families requested by [create_logical_device];
  - [Conduct]: what the control thread can throw, which vector accesses it
    makes, and how it leaves [main_loop].

  [uint32_t] values are integers in [0, 2^32) with the wrap-around of
  unsigned arithmetic written out. *)

From stdpp Require Import base numbers list strings gmap.
From Stdlib Require Import ZArith Lia Sorted.

(** ** Unsigned 32-bit arithmetic *)

Module U32.
Local Open Scope Z_scope.

Definition UINT32_MAX : Z := 4294967295.

(** Reduction modulo 2^32, the result of every [uint32_t] operation. *)
Definition wrap (z : Z) : Z := z mod 4294967296.

(** The values a [uint32_t] variable can hold. *)
Definition ok (z : Z) : Prop := 0 <= z <= UINT32_MAX.

Definition add (a b : Z) : Z := wrap (a + b).

End U32.

(** ** Outcome of a C++ function that may throw *)

Inductive outcome (A : Type) : Type :=
| Returned (a : A)            (* normal return *)
| Thrown (what : string)      (* std::runtime_error(what) leaves the function *)
| UndefinedBehaviour.         (* the C++ standard gives the execution no meaning *)
Arguments Returned {A} a.
Arguments Thrown {A} what.
Arguments UndefinedBehaviour {A}.

(** ** Physical-device selection *)

Module Selector.
Local Open Scope Z_scope.

(** [VkPhysicalDeviceType]; main.cpp prints the numbering
    (0 other, 1 integrated, 2 discrete, 3 virtual, 4 CPU). *)
Inductive VkPhysicalDeviceType : Type :=
| VK_PHYSICAL_DEVICE_TYPE_OTHER
| VK_PHYSICAL_DEVICE_TYPE_INTEGRATED_GPU
| VK_PHYSICAL_DEVICE_TYPE_DISCRETE_GPU
| VK_PHYSICAL_DEVICE_TYPE_VIRTUAL_GPU
| VK_PHYSICAL_DEVICE_TYPE_CPU.

Global Instance VkPhysicalDeviceType_eq_dec : EqDecision VkPhysicalDeviceType.
Proof. solve_decision. Defined.

(** One queue family as the two queries of [find_queue_families] see it:
    [queueFlags] from vkGetPhysicalDeviceQueueFamilyProperties and the
    answer of vkGetPhysicalDeviceSurfaceSupportKHR for [surface_]. *)
Record queue_family : Type := {
  queueFlags : Z;
  present_support : bool
}.

(** What the driver reports about one [VkPhysicalDevice]: the handle and the
    answers to the queries made during selection. *)
Record VkPhysicalDevice : Type := {
  handle : Z;
  geometryShader : bool;                  (* VkPhysicalDeviceFeatures *)
  deviceType : VkPhysicalDeviceType;      (* VkPhysicalDeviceProperties *)
  maxImageDimension2D : Z;                (* ... .limits, a uint32_t *)
  queue_families : list queue_family;
  available_extensions : list string;     (* extensionName of each property *)
  formats : list (Z * Z);                 (* (format, colorSpace) *)
  present_modes : list Z
}.

Definition VK_QUEUE_GRAPHICS_BIT : Z := 1.
Definition VK_KHR_SWAPCHAIN_EXTENSION_NAME : string := "VK_KHR_swapchain".
Definition device_extensions : list string := [VK_KHR_SWAPCHAIN_EXTENSION_NAME].

Record queue_family_indices : Type := {
  graphics_family : option Z;
  present_family : option Z
}.

Definition is_complete (q : queue_family_indices) : bool :=
  bool_decide (is_Some (graphics_family q)) && bool_decide (is_Some (present_family q)).

(** The range-for of [find_queue_families], with its counter [i] and its
    [break] once both indices are set. *)
Fixpoint find_queue_families_from (qs : list queue_family) (i : Z)
    (indices : queue_family_indices) : queue_family_indices :=
  match qs with
  | [] => indices
  | q :: rest =>
      let indices :=
        if bool_decide (Z.land (queueFlags q) VK_QUEUE_GRAPHICS_BIT <> 0)
        then {| graphics_family := Some i; present_family := present_family indices |}
        else indices in
      let indices :=
        if present_support q
        then {| graphics_family := graphics_family indices; present_family := Some i |}
        else indices in
      if is_complete indices then indices
      else find_queue_families_from rest (i + 1) indices
  end.

Definition find_queue_families (device : VkPhysicalDevice) : queue_family_indices :=
  find_queue_families_from (queue_families device) 0
    {| graphics_family := None; present_family := None |}.

(** [std::set<std::string> required_extensions], every available name erased
    from it, then [empty()]. *)
Definition check_device_extension_support (device : VkPhysicalDevice) : bool :=
  let required_extensions : gset string := list_to_set device_extensions in
  let required_extensions :=
    foldl (fun req extension => req ∖ {[ extension ]})
          required_extensions (available_extensions device) in
  bool_decide (required_extensions = ∅).

Definition is_device_suitable (device : VkPhysicalDevice) : bool :=
  let indices := find_queue_families device in
  let extensions_supported := check_device_extension_support device in
  let swap_chain_adequate :=
    if extensions_supported
    then negb (bool_decide (formats device = [])) &&
         negb (bool_decide (present_modes device = []))
    else false in
  is_complete indices && extensions_supported && swap_chain_adequate.

Definition rate_device_suitability (device : VkPhysicalDevice) : Z :=
  let score := 0 in
  if negb (geometryShader device) then 0
  else if negb (is_device_suitable device) then 0
  else
    let score :=
      if decide (deviceType device = VK_PHYSICAL_DEVICE_TYPE_DISCRETE_GPU)
      then U32.add score 1000 else score in
    let score := U32.add score (maxImageDimension2D device) in
    score.

(** [std::multimap<uint32_t, VkPhysicalDevice>]: the pairs in key order;
    [insert] places a pair after every pair whose key is not greater
    (the upper bound of the equal range). *)
Definition multimap : Type := list (Z * VkPhysicalDevice).

Fixpoint multimap_insert (kv : Z * VkPhysicalDevice) (m : multimap) : multimap :=
  match m with
  | [] => [kv]
  | kv' :: rest =>
      if kv.1 <? kv'.1 then kv :: m else kv' :: multimap_insert kv rest
  end.

(** [*m.rbegin()], undefined on an empty container. *)
Definition rbegin (m : multimap) : option (Z * VkPhysicalDevice) := last m.

(** The loop of [pick_physical_device] filling [candidates]. *)
Definition rate_all (devices : list VkPhysicalDevice) : multimap :=
  foldl (fun candidates device =>
           let score := rate_device_suitability device in
           multimap_insert (score, device) candidates)
        [] devices.

(** [pick_physical_device]: [devices] is what vkEnumeratePhysicalDevices
    returns; the result is the value stored in [physical_device_]. *)
Definition pick_physical_device (devices : list VkPhysicalDevice)
    : outcome VkPhysicalDevice :=
  if bool_decide (Z.of_nat (length devices) = 0)
  then Thrown "Failed to find GPUs with Vulkan support!"
  else
    let candidates := rate_all devices in
    match rbegin candidates with
    | None => UndefinedBehaviour
    | Some best =>
        if 0 <? best.1 then Returned best.2
        else Thrown "Failed to find a suitable GPU!"
    end.

(** A device that passes both guards of [rate_device_suitability]. *)
Definition eligible (device : VkPhysicalDevice) : bool :=
  geometryShader device && is_device_suitable device.

Definition discrete (device : VkPhysicalDevice) : bool :=
  bool_decide (deviceType device = VK_PHYSICAL_DEVICE_TYPE_DISCRETE_GPU).

Definition integrated (device : VkPhysicalDevice) : bool :=
  bool_decide (deviceType device = VK_PHYSICAL_DEVICE_TYPE_INTEGRATED_GPU).

(** Devices used in examples: one graphics+present queue family, the
    swapchain extension, one format and one present mode. *)
Definition gpu (h : Z) (ty : VkPhysicalDeviceType) (dim : Z) : VkPhysicalDevice :=
  {| handle := h; geometryShader := true; deviceType := ty;
     maxImageDimension2D := dim;
     queue_families := [ {| queueFlags := 15; present_support := true |} ];
     available_extensions := ["VK_KHR_maintenance1"; "VK_KHR_swapchain"];
     formats := [(50, 0)];
     present_modes := [2] |}.

(** A device without the swapchain extension. *)
Definition headless (h : Z) : VkPhysicalDevice :=
  {| handle := h; geometryShader := true;
     deviceType := VK_PHYSICAL_DEVICE_TYPE_DISCRETE_GPU;
     maxImageDimension2D := 16384;
     queue_families := [ {| queueFlags := 15; present_support := false |} ];
     available_extensions := [];
     formats := [];
     present_modes := [] |}.

(** *** The last pair of the sorted container *)

Fixpoint sorted (m : multimap) : Prop :=
  match m with
  | [] => True
  | kv :: rest => Forall (fun kv' => kv.1 <= kv'.1) rest /\ sorted rest
  end.

(** What the loop keeps as its best pair when it is read as a running
    maximum in which a later device replaces an earlier one of equal score. *)
Definition keep_later (best : option (Z * VkPhysicalDevice)) (device : VkPhysicalDevice)
    : option (Z * VkPhysicalDevice) :=
  let score := rate_device_suitability device in
  match best with
  | None => Some (score, device)
  | Some b => if score <? b.1 then Some b else Some (score, device)
  end.

(** [b] is the last device of maximal score in [devices]. *)
Definition last_max (devices : list VkPhysicalDevice) (b : Z * VkPhysicalDevice) : Prop :=
  b.1 = rate_device_suitability b.2 /\
  exists before after,
    devices = before ++ b.2 :: after /\
    Forall (fun d => rate_device_suitability d <= b.1) before /\
    Forall (fun d => rate_device_suitability d < b.1) after.

(** *** The selection properties as the specification words them *)

(** A list with an eligible discrete and an eligible integrated device
    yields a discrete device, whatever the image dimensions are. *)
Definition discrete_always_wins (devices : list VkPhysicalDevice) : Prop :=
  (exists d, d ∈ devices /\ eligible d = true /\ discrete d = true) ->
  (exists e, e ∈ devices /\ eligible e = true /\ integrated e = true) ->
  exists d, pick_physical_device devices = Returned d /\ discrete d = true.

(** Among the devices of maximal (positive) score the first one in
    enumeration order is selected. *)
Definition first_max_wins (devices : list VkPhysicalDevice) : Prop :=
  forall before d after,
    devices = before ++ d :: after ->
    0 < rate_device_suitability d ->
    Forall (fun x => rate_device_suitability x < rate_device_suitability d) before ->
    Forall (fun x => rate_device_suitability x <= rate_device_suitability d) after ->
    pick_physical_device devices = Returned d.

End Selector.

(** ** Swapchain negotiation *)

Module Negotiator.
Local Open Scope Z_scope.

Definition WIDTH : Z := 800.
Definition HEIGHT : Z := 600.

Record VkExtent2D : Type := {
  width : Z;
  height : Z
}.

(** The fields of [VkSurfaceCapabilitiesKHR] read by [choose_swap_extent]
    and [create_swap_chain]; all are [uint32_t]. *)
Record VkSurfaceCapabilitiesKHR : Type := {
  minImageCount : Z;
  maxImageCount : Z;
  currentExtent : VkExtent2D;
  minImageExtent : VkExtent2D;
  maxImageExtent : VkExtent2D
}.

Definition extent_ok (e : VkExtent2D) : Prop :=
  U32.ok (width e) /\ U32.ok (height e).

(** Every field holds a [uint32_t] value. *)
Definition capabilities_ok (capabilities : VkSurfaceCapabilitiesKHR) : Prop :=
  U32.ok (minImageCount capabilities) /\ U32.ok (maxImageCount capabilities) /\
  extent_ok (currentExtent capabilities) /\
  extent_ok (minImageExtent capabilities) /\
  extent_ok (maxImageExtent capabilities).

Definition choose_swap_extent (capabilities : VkSurfaceCapabilitiesKHR) : VkExtent2D :=
  if bool_decide (width (currentExtent capabilities) <> U32.UINT32_MAX)
  then currentExtent capabilities
  else
    let actual_extent := {| width := WIDTH; height := HEIGHT |} in
    let actual_extent :=
      {| width := Z.max (width (minImageExtent capabilities))
                        (Z.min (width (maxImageExtent capabilities)) (width actual_extent));
         height := height actual_extent |} in
    let actual_extent :=
      {| width := width actual_extent;
         height := Z.max (height (minImageExtent capabilities))
                         (Z.min (height (maxImageExtent capabilities)) (height actual_extent)) |} in
    actual_extent.

(** The value of the local [image_count] of [create_swap_chain] when it is
    stored into [create_info.minImageCount]. *)
Definition create_swap_chain_image_count (capabilities : VkSurfaceCapabilitiesKHR) : Z :=
  let image_count := U32.add (minImageCount capabilities) 1 in
  if (0 <? maxImageCount capabilities) && (maxImageCount capabilities <? image_count)
  then maxImageCount capabilities
  else image_count.

(** [e] lies between [minImageExtent] and [maxImageExtent] on both axes. *)
Definition extent_within (capabilities : VkSurfaceCapabilitiesKHR) (e : VkExtent2D) : Prop :=
  width (minImageExtent capabilities) <= width e <= width (maxImageExtent capabilities) /\
  height (minImageExtent capabilities) <= height e <= height (maxImageExtent capabilities).

(** The two bounds the specification states for the image count when the
    surface has an upper limit. *)
Definition image_count_bounded (capabilities : VkSurfaceCapabilitiesKHR) : Prop :=
  0 < maxImageCount capabilities ->
  create_swap_chain_image_count capabilities <= maxImageCount capabilities /\
  minImageCount capabilities <= create_swap_chain_image_count capabilities.

Definition extent (w h : Z) : VkExtent2D := {| width := w; height := h |}.

End Negotiator.

(** ** Frame synchronisation: [create_sync_objects], [draw_frame], [main_loop] *)

Module Sync.

Definition MAX_FRAMES_IN_FLIGHT : nat := 2.

(** Vulkan handles are opaque nonzero values; [VK_NULL_HANDLE] is 0. *)
Abbreviation VkFence := nat (only parsing).
Abbreviation VkSemaphore := nat (only parsing).
Definition VK_NULL_HANDLE : nat := 0.

Inductive VkResult : Type :=
| VK_SUCCESS
| VK_NOT_READY
| VK_TIMEOUT
| VK_SUBOPTIMAL_KHR
| VK_ERROR_OUT_OF_HOST_MEMORY
| VK_ERROR_OUT_OF_DEVICE_MEMORY
| VK_ERROR_DEVICE_LOST
| VK_ERROR_SURFACE_LOST_KHR
| VK_ERROR_OUT_OF_DATE_KHR.

Global Instance VkResult_eq_dec : EqDecision VkResult.
Proof. solve_decision. Defined.

Inductive VkQueue : Type := graphics_queue_ | present_queue_.

Global Instance VkQueue_eq_dec : EqDecision VkQueue.
Proof. solve_decision. Defined.

Definition VK_FENCE_CREATE_SIGNALED_BIT : N := 1.

(** The Vulkan entry points called by [create_sync_objects], [draw_frame]
    and [main_loop], with the arguments that vary. Waits and the acquisition
    are all made with timeout [UINT64_MAX]. *)
Inductive call : Type :=
| vkCreateSemaphore
| vkCreateFence (flags : N)
| vkWaitForFences (fence : VkFence)
| vkAcquireNextImageKHR (semaphore : VkSemaphore)
| vkResetFences (fence : VkFence)
| vkQueueSubmit (queue : VkQueue) (wait_semaphore : VkSemaphore)
    (command_buffer : nat) (signal_semaphore : VkSemaphore) (fence : VkFence)
| vkQueuePresentKHR (queue : VkQueue) (wait_semaphore : VkSemaphore) (image_index : nat)
| vkQueueWaitIdle (queue : VkQueue)
| vkDeviceWaitIdle.

Global Instance call_eq_dec : EqDecision call.
Proof. solve_decision. Defined.

(** The members of [hello_triangle_application] the three functions use.
    [swap_chain_images_] is kept as its size. *)
Record members : Type := {
  swap_chain_images_ : nat;
  image_avaiable_semaphores_ : list VkSemaphore;
  render_finished_semaphores_ : list VkSemaphore;
  in_flight_fences_ : list VkFence;
  images_in_flight_ : list VkFence;
  current_frame_ : nat
}.

Definition set_image_avaiable_semaphores_ (v : list VkSemaphore) (m : members) : members :=
  {| swap_chain_images_ := swap_chain_images_ m;
     image_avaiable_semaphores_ := v;
     render_finished_semaphores_ := render_finished_semaphores_ m;
     in_flight_fences_ := in_flight_fences_ m;
     images_in_flight_ := images_in_flight_ m;
     current_frame_ := current_frame_ m |}.

Definition set_render_finished_semaphores_ (v : list VkSemaphore) (m : members) : members :=
  {| swap_chain_images_ := swap_chain_images_ m;
     image_avaiable_semaphores_ := image_avaiable_semaphores_ m;
     render_finished_semaphores_ := v;
     in_flight_fences_ := in_flight_fences_ m;
     images_in_flight_ := images_in_flight_ m;
     current_frame_ := current_frame_ m |}.

Definition set_in_flight_fences_ (v : list VkFence) (m : members) : members :=
  {| swap_chain_images_ := swap_chain_images_ m;
     image_avaiable_semaphores_ := image_avaiable_semaphores_ m;
     render_finished_semaphores_ := render_finished_semaphores_ m;
     in_flight_fences_ := v;
     images_in_flight_ := images_in_flight_ m;
     current_frame_ := current_frame_ m |}.

Definition set_images_in_flight_ (v : list VkFence) (m : members) : members :=
  {| swap_chain_images_ := swap_chain_images_ m;
     image_avaiable_semaphores_ := image_avaiable_semaphores_ m;
     render_finished_semaphores_ := render_finished_semaphores_ m;
     in_flight_fences_ := in_flight_fences_ m;
     images_in_flight_ := v;
     current_frame_ := current_frame_ m |}.

Definition set_current_frame_ (v : nat) (m : members) : members :=
  {| swap_chain_images_ := swap_chain_images_ m;
     image_avaiable_semaphores_ := image_avaiable_semaphores_ m;
     render_finished_semaphores_ := render_finished_semaphores_ m;
     in_flight_fences_ := in_flight_fences_ m;
     images_in_flight_ := images_in_flight_ m;
     current_frame_ := v |}.

(** *** Member functions as programs

    A member function is a tree of the Vulkan calls it makes: each call
    hands the continuation its [VkResult] and the value found in its
    out-parameter afterwards (a created handle, the acquired image index);
    reads and writes of the members are explicit. *)
Inductive prog (A : Type) : Type :=
| Ret (a : A)
| Throw (what : string)                           (* throw std::runtime_error(what) *)
| Undefined                                       (* e.g. vector index out of range *)
| Read (k : members -> prog A)
| Store (m : members) (k : prog A)
| Call (c : call) (k : VkResult -> nat -> prog A).
Arguments Ret {A} a.
Arguments Throw {A} what.
Arguments Undefined {A}.
Arguments Read {A} k.
Arguments Store {A} m k.
Arguments Call {A} c k.

Fixpoint bind {A B : Type} (p : prog A) (f : A -> prog B) : prog B :=
  match p with
  | Ret a => f a
  | Throw what => Throw what
  | Undefined => Undefined
  | Read k => Read (fun m => bind (k m) f)
  | Store m k => Store m (bind k f)
  | Call c k => Call c (fun r out => bind (k r out) f)
  end.

Global Instance prog_ret : MRet prog := @Ret.
Global Instance prog_bind : MBind prog := fun A B f p => bind p f.

Definition vk (c : call) : prog (VkResult * nat) := Call c (fun r out => Ret (r, out)).
Definition read : prog members := Read Ret.
Definition modify (f : members -> members) : prog unit := Read (fun m => Store (f m) (Ret tt)).

(** [v[i]] of a [std::vector]: undefined when [i] is out of range. *)
Definition at_ {A : Type} (v : list A) (i : nat) : prog A :=
  match v !! i with
  | Some x => Ret x
  | None => Undefined
  end.

(** [if (b) { p }] *)
Definition when (b : bool) (p : prog unit) : prog unit :=
  if b then p else Ret tt.

(** The [for] of [create_sync_objects], [n] iterations left; the three
    creations are joined by [||], so a failure skips the later ones. Each
    creation is handed the address of the vector element, which receives
    the out-parameter. *)
Fixpoint create_sync_objects_from (n : nat) (i : nat) : prog unit :=
  match n with
  | O => Ret tt
  | S n' =>
      '(r1, semaphore) ← vk vkCreateSemaphore;
      modify (fun m => set_image_avaiable_semaphores_
                         (<[i := semaphore]> (image_avaiable_semaphores_ m)) m);;
      if bool_decide (r1 <> VK_SUCCESS)
      then Throw "Failed to create synchronization objects for a frame!"
      else
        '(r2, semaphore) ← vk vkCreateSemaphore;
        modify (fun m => set_render_finished_semaphores_
                           (<[i := semaphore]> (render_finished_semaphores_ m)) m);;
        if bool_decide (r2 <> VK_SUCCESS)
        then Throw "Failed to create synchronization objects for a frame!"
        else
          '(r3, fence) ← vk (vkCreateFence VK_FENCE_CREATE_SIGNALED_BIT);
          modify (fun m => set_in_flight_fences_
                             (<[i := fence]> (in_flight_fences_ m)) m);;
          if bool_decide (r3 <> VK_SUCCESS)
          then Throw "Failed to create synchronization objects for a frame!"
          else create_sync_objects_from n' (S i)
  end.

Definition create_sync_objects : prog unit :=
  modify (fun m => set_image_avaiable_semaphores_
                     (resize MAX_FRAMES_IN_FLIGHT VK_NULL_HANDLE (image_avaiable_semaphores_ m)) m);;
  modify (fun m => set_render_finished_semaphores_
                     (resize MAX_FRAMES_IN_FLIGHT VK_NULL_HANDLE (render_finished_semaphores_ m)) m);;
  modify (fun m => set_in_flight_fences_
                     (resize MAX_FRAMES_IN_FLIGHT VK_NULL_HANDLE (in_flight_fences_ m)) m);;
  modify (fun m => set_images_in_flight_
                     (resize (swap_chain_images_ m) VK_NULL_HANDLE (images_in_flight_ m)) m);;
  create_sync_objects_from MAX_FRAMES_IN_FLIGHT 0.

(** [fence] stands for [in_flight_fences_[current_frame_]], which the C++
    text evaluates again at each use; nothing writes that vector or
    [current_frame_] in between. The same holds for the two semaphores. *)
Definition draw_frame : prog unit :=
  m ← read;
  fence ← at_ (in_flight_fences_ m) (current_frame_ m);
  vk (vkWaitForFences fence);;

  image_avaiable ← at_ (image_avaiable_semaphores_ m) (current_frame_ m);
  '(_, image_index) ← vk (vkAcquireNextImageKHR image_avaiable);

  (* Check if a previous frame is using this image *)
  image_fence ← at_ (images_in_flight_ m) image_index;
  when (bool_decide (image_fence <> VK_NULL_HANDLE))
       (vk (vkWaitForFences image_fence);; Ret tt);;
  (* Mark the image as now being in use by this frame *)
  modify (fun m => set_images_in_flight_ (<[image_index := fence]> (images_in_flight_ m)) m);;

  render_finished ← at_ (render_finished_semaphores_ m) (current_frame_ m);

  vk (vkResetFences fence);;

  '(r, _) ← vk (vkQueueSubmit graphics_queue_ image_avaiable image_index render_finished fence);
  (if bool_decide (r <> VK_SUCCESS)
   then Throw "Failed to submit draw command buffer!" else Ret tt);;

  vk (vkQueuePresentKHR present_queue_ render_finished image_index);;

  vk (vkQueueWaitIdle present_queue_);;

  modify (fun m => set_current_frame_ ((current_frame_ m + 1) mod MAX_FRAMES_IN_FLIGHT) m).

(** The statement after the loop of [main_loop]. *)
Definition main_loop_exit : prog unit :=
  vk vkDeviceWaitIdle;; Ret tt.

(** *** Running a member function against scripted driver replies

    [run p m replies] feeds the calls of [p] the given replies in order and
    returns the calls made, the members afterwards and the outcome ([None]
    when the replies run out while a call is waiting for the driver). *)
Fixpoint run {A : Type} (p : prog A) (m : members) (replies : list (VkResult * nat))
    : list call * members * option (outcome A) :=
  match p with
  | Ret a => ([], m, Some (Returned a))
  | Throw what => ([], m, Some (Thrown what))
  | Undefined => ([], m, Some UndefinedBehaviour)
  | Read k => run (k m) m replies
  | Store m' k => run k m' replies
  | Call c k =>
      match replies with
      | [] => ([c], m, None)
      | (r, out) :: rest =>
          let '(calls, m', o) := run (k r out) m rest in (c :: calls, m', o)
      end
  end.



(** *** The device

    A fence is signaled or not; a submitted batch stays pending, with the
    fence it will signal and the swapchain image its command buffer renders
    to, until the GPU completes it. *)
Record device : Type := {
  fences : gmap VkFence bool;
  pending : list (VkFence * nat);
  swapchain_images : nat
}.

Definition set_fences (v : gmap VkFence bool) (d : device) : device :=
  {| fences := v; pending := pending d; swapchain_images := swapchain_images d |}.

Definition set_pending (v : list (VkFence * nat)) (d : device) : device :=
  {| fences := fences d; pending := v; swapchain_images := swapchain_images d |}.

(** [api d c r out d']: on device [d] the call [c] can return [r], leaving
    [out] in its out-parameter (any value where the call writes none) and the
    device as [d'].

    The device stays operational: a wait (made with timeout [UINT64_MAX])
    returns [VK_SUCCESS], and only once its condition holds. Creations and
    submissions may fail, and the acquisition and the presentation may
    return any result; a failed acquisition leaves [image_index] as it was,
    uninitialised: any [out]. *)
Inductive api : device -> call -> VkResult -> nat -> device -> Prop :=
| api_create_semaphore d h :
    h <> VK_NULL_HANDLE -> api d vkCreateSemaphore VK_SUCCESS h d
| api_create_semaphore_fail d r out :
    r <> VK_SUCCESS -> api d vkCreateSemaphore r out d
| api_create_fence d flags h :
    h <> VK_NULL_HANDLE -> fences d !! h = None ->
    api d (vkCreateFence flags) VK_SUCCESS h
        (set_fences (<[h := N.testbit flags 0]> (fences d)) d)
| api_create_fence_fail d flags r out :
    r <> VK_SUCCESS -> api d (vkCreateFence flags) r out d
| api_wait_for_fences d f out :
    fences d !! f = Some true -> api d (vkWaitForFences f) VK_SUCCESS out d
| api_acquire d sem r i :
    r = VK_SUCCESS \/ r = VK_SUBOPTIMAL_KHR -> i < swapchain_images d ->
    api d (vkAcquireNextImageKHR sem) r i d
| api_acquire_fail d sem r out :
    r <> VK_SUCCESS -> r <> VK_SUBOPTIMAL_KHR ->
    api d (vkAcquireNextImageKHR sem) r out d
| api_reset_fences d f b out :
    fences d !! f = Some b ->
    api d (vkResetFences f) VK_SUCCESS out (set_fences (<[f := false]> (fences d)) d)
| api_queue_submit d q wait cb signal f out :
    api d (vkQueueSubmit q wait cb signal f) VK_SUCCESS out
        (set_pending (pending d ++ [(f, cb)]) d)
| api_queue_submit_fail d q wait cb signal f r out :
    r <> VK_SUCCESS -> api d (vkQueueSubmit q wait cb signal f) r out d
| api_queue_present d q wait i r out :
    api d (vkQueuePresentKHR q wait i) r out d
| api_queue_wait_idle d q r out :
    api d (vkQueueWaitIdle q) r out d
| api_device_wait_idle d out :
    pending d = [] -> api d vkDeviceWaitIdle VK_SUCCESS out d.

(** What has happened so far: calls that returned and batches completed. *)
Inductive event : Type :=
| EvCall (c : call) (r : VkResult) (out : nat)
| EvComplete (fence : VkFence) (image : nat).

Record world : Type := {
  history : list event;
  dev : device;
  mem : members
}.

(** The GPU completes one pending batch and signals its fence. *)
Inductive gpu_step : world -> world -> Prop :=
| gpu_complete h d m before f i after :
    pending d = before ++ (f, i) :: after ->
    gpu_step {| history := h; dev := d; mem := m |}
             {| history := h ++ [EvComplete f i];
                dev := set_pending (before ++ after) (set_fences (<[f := true]> (fences d)) d);
                mem := m |}.

(** Where the control thread is: inside [create_sync_objects] (the last
    step of [init_vulkan]), at the loop test of [main_loop], inside
    [draw_frame], in the statement after the loop, or finished. *)
Inductive phase : Type := InInit | InFrame | InExit.

Inductive control : Type :=
| Run (ph : phase) (p : prog unit)
| Loop
| Crashed (what : string)      (* caught in main: EXIT_FAILURE *)
| Exited.                      (* EXIT_SUCCESS *)

Record config : Type := {
  now : world;
  ctl : control
}.

Definition after_return (ph : phase) : control :=
  match ph with
  | InInit => Loop
  | InFrame => Loop
  | InExit => Exited
  end.

Inductive cpu_step : config -> config -> Prop :=
| cpu_call ph h d m c k r out d' :
    api d c r out d' ->
    cpu_step {| now := {| history := h; dev := d; mem := m |}; ctl := Run ph (Call c k) |}
             {| now := {| history := h ++ [EvCall c r out]; dev := d'; mem := m |};
                ctl := Run ph (k r out) |}
| cpu_read ph w k :
    cpu_step {| now := w; ctl := Run ph (Read k) |}
             {| now := w; ctl := Run ph (k (mem w)) |}
| cpu_store ph h d m m' k :
    cpu_step {| now := {| history := h; dev := d; mem := m |}; ctl := Run ph (Store m' k) |}
             {| now := {| history := h; dev := d; mem := m' |}; ctl := Run ph k |}
| cpu_return ph w :
    cpu_step {| now := w; ctl := Run ph (Ret tt) |}
             {| now := w; ctl := after_return ph |}
| cpu_throw ph w what :
    cpu_step {| now := w; ctl := Run ph (Throw what) |}
             {| now := w; ctl := Crashed what |}
| cpu_frame w :                (* glfwWindowShouldClose is false *)
    cpu_step {| now := w; ctl := Loop |}
             {| now := w; ctl := Run InFrame draw_frame |}
| cpu_close w :                (* glfwWindowShouldClose is true *)
    cpu_step {| now := w; ctl := Loop |}
             {| now := w; ctl := Run InExit main_loop_exit |}.

Inductive step : config -> config -> Prop :=
| step_cpu c c' : cpu_step c c' -> step c c'
| step_gpu w w' c : gpu_step w w' -> step {| now := w; ctl := c |} {| now := w'; ctl := c |}.

(** The state in which [init_vulkan] reaches [create_sync_objects], for a
    swapchain of [n] images: no fence exists and the vectors are empty. *)
Definition initial (n : nat) : config :=
  {| now := {| history := [];
               dev := {| fences := ∅; pending := []; swapchain_images := n |};
               mem := {| swap_chain_images_ := n;
                         image_avaiable_semaphores_ := [];
                         render_finished_semaphores_ := [];
                         in_flight_fences_ := [];
                         images_in_flight_ := [];
                         current_frame_ := 0 |} |};
     ctl := Run InInit create_sync_objects |}.

Definition reachable (n : nat) (c : config) : Prop := rtc step (initial n) c.

(** *** Quantities and conditions of the frame protocol *)

Definition is_submit (e : event) : bool :=
  match e with
  | EvCall (vkQueueSubmit _ _ _ _ _) VK_SUCCESS _ => true
  | _ => false
  end.

Definition is_completion (e : event) : bool :=
  match e with
  | EvComplete _ _ => true
  | _ => false
  end.

(** Batches accepted by the queue, batches completed by the GPU. *)
Definition submitted (h : list event) : nat := length (List.filter is_submit h).
Definition completed (h : list event) : nat := length (List.filter is_completion h).

(** Fences that are not signaled: the slots in the Submitted state. *)
Definition unsignaled (d : device) : gmap VkFence bool :=
  filter (fun kv => kv.2 = false) (fences d).

Definition was_reset (h : list event) (f : VkFence) : Prop :=
  exists r out, EvCall (vkResetFences f) r out ∈ h.

Definition was_acquired (h : list event) (i : nat) : Prop :=
  exists sem r, EvCall (vkAcquireNextImageKHR sem) r i ∈ h.

(** A write to the members hands an image over correctly: wherever an
    entry of [images_in_flight_] changes, the fence it held is none or
    signaled. *)
Definition hand_over (w : world) (m' : members) : Prop :=
  forall i g f,
    images_in_flight_ (mem w) !! i = Some g ->
    images_in_flight_ m' !! i = Some f ->
    f <> g ->
    g = VK_NULL_HANDLE \/ fences (dev w) !! g = Some true.

(** The invariant of the protocol. *)
Record consistent (w : world) : Prop := {
  pending_fences_distinct : NoDup (pending (dev w)).*1;
  pending_images_distinct : NoDup (pending (dev w)).*2;
  pending_owned : forall f i, (f, i) ∈ pending (dev w) ->
    fences (dev w) !! f = Some false /\ images_in_flight_ (mem w) !! i = Some f;
  pending_count : submitted (history w) = completed (history w) + length (pending (dev w));
  unsignaled_reset : forall f, fences (dev w) !! f = Some false -> was_reset (history w) f;
  null_not_fence : fences (dev w) !! VK_NULL_HANDLE = None;
  fences_bounded : size (fences (dev w)) <= MAX_FRAMES_IN_FLIGHT;
  owned_acquired : forall i g, images_in_flight_ (mem w) !! i = Some g ->
    g <> VK_NULL_HANDLE -> was_acquired (history w) i
}.

Definition set_mem (m : members) (w : world) : world :=
  {| history := history w; dev := dev w; mem := m |}.

Definition returned (w : world) (c : call) (r : VkResult) (out : nat) (d' : device) : world :=
  {| history := history w ++ [EvCall c r out]; dev := d'; mem := mem w |}.

(** Every frame slot holds a fence that exists, and [current_frame_]
    designates a slot. *)
Definition ready (w : world) : Prop :=
  current_frame_ (mem w) < MAX_FRAMES_IN_FLIGHT /\
  forall slot, slot < MAX_FRAMES_IN_FLIGHT ->
    exists f, in_flight_fences_ (mem w) !! slot = Some f /\ is_Some (fences (dev w) !! f).

(** [safe Q p w]: from world [w], however the GPU progresses in between,
    every call and every write of [p] keeps the invariant, every write
    hands images over correctly, and [Q] holds when [p] returns. *)
Fixpoint safe (Q : world -> Prop) (p : prog unit) (w : world) : Prop :=
  match p with
  | Ret _ => forall w1, rtc gpu_step w w1 -> consistent w1 -> Q w1
  | Throw _ | Undefined => True
  | Read k => safe Q (k (mem w)) w
  | Store m' k =>
      forall w1, rtc gpu_step w w1 -> consistent w1 ->
        hand_over w1 m' /\ consistent (set_mem m' w1) /\ safe Q k (set_mem m' w1)
  | Call c k =>
      forall w1, rtc gpu_step w w1 -> consistent w1 ->
        forall r out d', api (dev w1) c r out d' ->
          consistent (returned w1 c r out d') /\ safe Q (k r out) (returned w1 c r out d')
  end.

(** What holds when a phase returns: the loop of [main_loop] is entered
    with every slot ready. *)
Definition after (ph : phase) (w : world) : Prop :=
  match ph with
  | InInit | InFrame => ready w
  | InExit => True
  end.

Definition invariant (c : config) : Prop :=
  consistent (now c) /\
  match ctl c with
  | Run ph p => safe (after ph) p (now c)
  | Loop => ready (now c)
  | _ => True
  end.

(** The fences, the slots and [current_frame_] of [w] are still there in [w']. *)
Definition keeps (w w' : world) : Prop :=
  (forall f, is_Some (fences (dev w) !! f) -> is_Some (fences (dev w') !! f)) /\
  in_flight_fences_ (mem w') = in_flight_fences_ (mem w) /\
  current_frame_ (mem w') = current_frame_ (mem w).

(** *** An executable reading of the step relation

    [api_fun] decides whether a call can return a given reply and computes
    the device afterwards; [drive] runs a configuration through a script of
    driver replies, GPU completions and loop decisions, taking the reads,
    writes, returns and throws of the control thread on its own. *)
Definition api_fun (d : device) (c : call) (r : VkResult) (out : nat) : option device :=
  match c with
  | vkCreateSemaphore =>
      if decide (r = VK_SUCCESS)
      then (if decide (out = VK_NULL_HANDLE) then None else Some d)
      else Some d
  | vkCreateFence flags =>
      if decide (r = VK_SUCCESS)
      then (if decide (out = VK_NULL_HANDLE) then None
            else match fences d !! out with
                 | None => Some (set_fences (<[out := N.testbit flags 0]> (fences d)) d)
                 | Some _ => None
                 end)
      else Some d
  | vkWaitForFences f =>
      if decide (r = VK_SUCCESS)
      then match fences d !! f with Some true => Some d | _ => None end
      else None
  | vkAcquireNextImageKHR _ =>
      if decide (r = VK_SUCCESS \/ r = VK_SUBOPTIMAL_KHR)
      then (if decide (out < swapchain_images d) then Some d else None)
      else Some d
  | vkResetFences f =>
      if decide (r = VK_SUCCESS)
      then match fences d !! f with
           | Some _ => Some (set_fences (<[f := false]> (fences d)) d)
           | None => None
           end
      else None
  | vkQueueSubmit _ _ cb _ f =>
      if decide (r = VK_SUCCESS)
      then Some (set_pending (pending d ++ [(f, cb)]) d)
      else Some d
  | vkQueuePresentKHR _ _ _ => Some d
  | vkQueueWaitIdle _ => Some d
  | vkDeviceWaitIdle =>
      if decide (r = VK_SUCCESS)
      then match pending d with [] => Some d | _ => None end
      else None
  end.

(** The reads and writes [p] makes before its next call, return or throw. *)
Fixpoint advance (p : prog unit) (m : members) : members * prog unit :=
  match p with
  | Read k => advance (k m) m
  | Store m' k => advance k m'
  | _ => (m, p)
  end.

Definition settle (c : config) : config :=
  match ctl c with
  | Run ph p =>
      let '(m', p') := advance p (mem (now c)) in
      let w' := set_mem m' (now c) in
      match p' with
      | Ret _ => {| now := w'; ctl := after_return ph |}
      | Throw what => {| now := w'; ctl := Crashed what |}
      | _ => {| now := w'; ctl := Run ph p' |}
      end
  | _ => c
  end.

Inductive move : Type :=
| Reply (r : VkResult) (out : nat)     (* the pending call returns *)
| Complete (k : nat)                   (* the GPU completes the k-th pending batch *)
| Frame                                (* the window stays open *)
| Close.                               (* the window was closed *)

Definition move1 (mv : move) (c : config) : option config :=
  match mv, ctl c with
  | Reply r out, Run ph (Call call k) =>
      match api_fun (dev (now c)) call r out with
      | Some d' => Some {| now := returned (now c) call r out d'; ctl := Run ph (k r out) |}
      | None => None
      end
  | Complete k, _ =>
      match pending (dev (now c)) !! k with
      | Some (f, i) =>
          Some {| now := {| history := history (now c) ++ [EvComplete f i];
                            dev := set_pending (delete k (pending (dev (now c))))
                                     (set_fences (<[f := true]> (fences (dev (now c))))
                                                 (dev (now c)));
                            mem := mem (now c) |};
                  ctl := ctl c |}
      | None => None
      end
  | Frame, Loop => Some {| now := now c; ctl := Run InFrame draw_frame |}
  | Close, Loop => Some {| now := now c; ctl := Run InExit main_loop_exit |}
  | _, _ => None
  end.

Fixpoint drive (script : list move) (c : config) : option config :=
  match script with
  | [] => Some (settle c)
  | mv :: script' =>
      match move1 mv (settle c) with
      | Some c' => drive script' c'
      | None => None
      end
  end.

(** The configuration a script leads to from the initial one (the initial
    one itself when the script cannot be followed). *)
Definition driven (n : nat) (script : list move) : config :=
  default (initial n) (drive script (initial n)).

(** [create_sync_objects] succeeding with handles 1..4 for the semaphores
    and 1, 2 for the fences. *)
Definition init_script : list move :=
  [Reply VK_SUCCESS 1; Reply VK_SUCCESS 2; Reply VK_SUCCESS 1;
   Reply VK_SUCCESS 3; Reply VK_SUCCESS 4; Reply VK_SUCCESS 2].

(** One frame in which every call succeeds and the acquisition returns
    image [i], for an image that has no fence recorded yet (six calls, no
    wait on the image). *)
Definition frame_script (i : nat) : list move :=
  [Frame; Reply VK_SUCCESS 0; Reply VK_SUCCESS i; Reply VK_SUCCESS 0;
   Reply VK_SUCCESS 0; Reply VK_SUCCESS 0; Reply VK_SUCCESS 0].

(** The members once [create_sync_objects] has run through [init_script]
    for three swapchain images. *)
Definition slots_ready : members :=
  {| swap_chain_images_ := 3;
     image_avaiable_semaphores_ := [1; 3];
     render_finished_semaphores_ := [2; 4];
     in_flight_fences_ := [1; 2];
     images_in_flight_ := [0; 0; 0];
     current_frame_ := 0 |}.


(** From [w] to [w'] no batch was submitted, no fence was created or
    changed, and the slots and [current_frame_] were not written. *)
Definition still (w w' : world) : Prop :=
  pending (dev w') = [] /\
  fences (dev w') = fences (dev w) /\
  in_flight_fences_ (mem w') = in_flight_fences_ (mem w) /\
  current_frame_ (mem w') = current_frame_ (mem w).

End Sync.

(** ** Instance, logical device and swapchain set-up *)

Module Setup.
Import Selector Negotiator.
Local Open Scope Z_scope.

Definition validation_layers : list string := ["VK_LAYER_KHRONOS_validation"].

(** The inner loop of [check_validation_layer_support]: [strcmp] of the
    wanted name with each [layerName], leaving at the first match. *)
Fixpoint layer_found (layer_name : string) (available_layers : list string) : bool :=
  match available_layers with
  | [] => false
  | layer_properties :: rest =>
      if String.eqb layer_name layer_properties then true
      else layer_found layer_name rest
  end.

(** The outer loop, over the wanted layers. *)
Fixpoint all_layers_found (layers : list string) (available_layers : list string) : bool :=
  match layers with
  | [] => true
  | layer_name :: rest =>
      if negb (layer_found layer_name available_layers) then false
      else all_layers_found rest available_layers
  end.

(** [available_layers] is what vkEnumerateInstanceLayerProperties reports. *)
Definition check_validation_layer_support (available_layers : list string) : bool :=
  all_layers_found validation_layers available_layers.

Definition VK_FORMAT_B8G8R8A8_SRGB : Z := 50.
Definition VK_COLOR_SPACE_SRGB_NONLINEAR_KHR : Z := 0.
Definition VK_PRESENT_MODE_MAILBOX_KHR : Z := 1.
Definition VK_PRESENT_MODE_FIFO_KHR : Z := 2.

(** A [VkSurfaceFormatKHR] is the pair (format, colorSpace), as in
    [Selector.formats]. *)
Definition preferred_format (available_format : Z * Z) : bool :=
  (available_format.1 =? VK_FORMAT_B8G8R8A8_SRGB) &&
  (available_format.2 =? VK_COLOR_SPACE_SRGB_NONLINEAR_KHR).

(** The range-for of [choose_swap_surface_format]. *)
Fixpoint first_preferred_format (availableFormats : list (Z * Z)) : option (Z * Z) :=
  match availableFormats with
  | [] => None
  | available_format :: rest =>
      if preferred_format available_format then Some available_format
      else first_preferred_format rest
  end.

Definition choose_swap_surface_format (availableFormats : list (Z * Z)) : outcome (Z * Z) :=
  match first_preferred_format availableFormats with
  | Some available_format => Returned available_format
  | None =>
      match availableFormats !! 0%nat with
      | Some first => Returned first
      | None => UndefinedBehaviour       (* availableFormats[0] of an empty vector *)
      end
  end.

Fixpoint choose_swap_present_mode (availablePresentModes : list Z) : Z :=
  match availablePresentModes with
  | [] => VK_PRESENT_MODE_FIFO_KHR
  | available_present_mode :: rest =>
      if available_present_mode =? VK_PRESENT_MODE_MAILBOX_KHR
      then available_present_mode
      else choose_swap_present_mode rest
  end.

Inductive VkSharingMode : Type :=
| VK_SHARING_MODE_EXCLUSIVE
| VK_SHARING_MODE_CONCURRENT.

(** The fields of [VkSwapchainCreateInfoKHR] that [create_swap_chain]
    computes; the zero-initialised struct has no queue family indices. *)
Record VkSwapchainCreateInfoKHR : Type := {
  ci_minImageCount : Z;
  ci_imageFormat : Z;
  ci_imageColorSpace : Z;
  ci_imageExtent : VkExtent2D;
  ci_imageSharingMode : VkSharingMode;
  ci_queueFamilyIndexCount : Z;
  ci_pQueueFamilyIndices : list Z;
  ci_presentMode : Z
}.

(** [std::optional::value()]: throws [std::bad_optional_access] when empty. *)
Definition value {A : Type} (o : option A) : outcome A :=
  match o with
  | Some a => Returned a
  | None => Thrown "bad optional access"
  end.

Definition and_then {A B : Type} (o : outcome A) (f : A -> outcome B) : outcome B :=
  match o with
  | Returned a => f a
  | Thrown what => Thrown what
  | UndefinedBehaviour => UndefinedBehaviour
  end.

(** [create_swap_chain] up to its call of vkCreateSwapchainKHR: the create
    info it passes, for the selected device and the capabilities queried. *)
Definition create_swap_chain_info (physical_device_ : VkPhysicalDevice)
    (capabilities : VkSurfaceCapabilitiesKHR) : outcome VkSwapchainCreateInfoKHR :=
  and_then (choose_swap_surface_format (formats physical_device_)) (fun surface_format =>
  let present_mode := choose_swap_present_mode (present_modes physical_device_) in
  let extent := choose_swap_extent capabilities in
  let image_count := create_swap_chain_image_count capabilities in
  let indices := find_queue_families physical_device_ in
  and_then (value (graphics_family indices)) (fun graphics =>
  and_then (value (present_family indices)) (fun present =>
  let concurrent := bool_decide (graphics_family indices <> present_family indices) in
  Returned
    {| ci_minImageCount := image_count;
       ci_imageFormat := surface_format.1;
       ci_imageColorSpace := surface_format.2;
       ci_imageExtent := extent;
       ci_imageSharingMode :=
         if concurrent then VK_SHARING_MODE_CONCURRENT else VK_SHARING_MODE_EXCLUSIVE;
       ci_queueFamilyIndexCount := if concurrent then 2 else 0;
       ci_pQueueFamilyIndices := if concurrent then [graphics; present] else [];
       ci_presentMode := present_mode |}))).

(** [std::set<uint32_t>]: its elements in increasing order, no duplicates. *)
Fixpoint set_insert (x : Z) (s : list Z) : list Z :=
  match s with
  | [] => [x]
  | y :: rest =>
      if x <? y then x :: s
      else if x =? y then s
      else y :: set_insert x rest
  end.

(** The [queueFamilyIndex] of each [VkDeviceQueueCreateInfo] that
    [create_logical_device] passes, in order. *)
Definition queue_create_infos (physical_device_ : VkPhysicalDevice) : outcome (list Z) :=
  let indices := find_queue_families physical_device_ in
  and_then (value (graphics_family indices)) (fun graphics =>
  and_then (value (present_family indices)) (fun present =>
  let unique_queue_families := set_insert present (set_insert graphics []) in
  Returned unique_queue_families)).

(** The family has the graphics bit. *)
Definition has_graphics (q : queue_family) : bool :=
  bool_decide (Z.land (queueFlags q) VK_QUEUE_GRAPHICS_BIT <> 0).

End Setup.

(** ** Conduct of the control thread: exceptions, vector accesses, exit *)

Module Conduct.
Import Sync.

Definition sync_objects_error : string :=
  "Failed to create synchronization objects for a frame!".
Definition submit_error : string := "Failed to submit draw command buffer!".

(** Every [throw] that [p] can reach carries one of the [allowed] messages. *)
Fixpoint throws_only (allowed : list string) (p : prog unit) : Prop :=
  match p with
  | Ret _ | Undefined => True
  | Throw what => what ∈ allowed
  | Read k => forall m, throws_only allowed (k m)
  | Store _ k => throws_only allowed k
  | Call _ k => forall r out, throws_only allowed (k r out)
  end.

Definition may_throw (ph : phase) : list string :=
  match ph with
  | InInit => [sync_objects_error]
  | InFrame => [submit_error]
  | InExit => []
  end.

Definition throws_as_designed (c : config) : Prop :=
  match ctl c with
  | Run ph p => throws_only (may_throw ph) p
  | Crashed what => what ∈ [sync_objects_error; submit_error]
  | _ => True
  end.

(** The vectors have the sizes [create_sync_objects] gives them, for a
    swapchain of [n] images, and [current_frame_] designates a slot. *)
Definition shaped (n : nat) (m : members) : Prop :=
  length (image_avaiable_semaphores_ m) = MAX_FRAMES_IN_FLIGHT /\
  length (render_finished_semaphores_ m) = MAX_FRAMES_IN_FLIGHT /\
  length (in_flight_fences_ m) = MAX_FRAMES_IN_FLIGHT /\
  length (images_in_flight_ m) = n /\
  current_frame_ m < MAX_FRAMES_IN_FLIGHT.

(** An acquisition hands back the index of one of the [n] images. *)
Definition reply_in_range (n : nat) (c : call) (out : nat) : Prop :=
  match c with
  | vkAcquireNextImageKHR _ => out < n
  | _ => True
  end.

(** [defined n Q p m]: run from members [m] with acquisitions in range,
    [p] never indexes a vector out of range, and leaves members that
    satisfy [Q] when it returns. *)
Fixpoint defined (n : nat) (Q : members -> Prop) (p : prog unit) (m : members) : Prop :=
  match p with
  | Ret _ => Q m
  | Throw _ => True
  | Undefined => False
  | Read k => defined n Q (k m) m
  | Store m' k => defined n Q k m'
  | Call c k => forall r out, reply_in_range n c out -> defined n Q (k r out) m
  end.

Definition acquisitions_succeeded (h : list event) : Prop :=
  forall sem r out, EvCall (vkAcquireNextImageKHR sem) r out ∈ h ->
    r = VK_SUCCESS \/ r = VK_SUBOPTIMAL_KHR.

Definition leaves (n : nat) (ph : phase) (m : members) : Prop :=
  match ph with
  | InInit | InFrame => shaped n m
  | InExit => True
  end.

Definition in_range (n : nat) (c : config) : Prop :=
  swapchain_images (dev (now c)) = n /\
  (acquisitions_succeeded (history (now c)) ->
   match ctl c with
   | Run ph p => defined n (leaves n ph) p (mem (now c))
   | Loop => shaped n (mem (now c))
   | _ => True
   end).

(** After the loop of [main_loop] the thread is at the device-idle wait or
    past it; past it nothing is pending. *)
Definition draining (c : config) : Prop :=
  match ctl c with
  | Run InExit p =>
      p = main_loop_exit \/ (p = Ret tt /\ pending (dev (now c)) = [])
  | Exited => pending (dev (now c)) = []
  | _ => True
  end.

(** [returns_with Q p m]: whenever [p], run from members [m], returns,
    whatever the driver replies, the members satisfy [Q]. *)
Fixpoint returns_with (Q : members -> Prop) (p : prog unit) (m : members) : Prop :=
  match p with
  | Ret _ => Q m
  | Throw _ | Undefined => True
  | Read k => returns_with Q (k m) m
  | Store m' k => returns_with Q k m'
  | Call _ k => forall r out, returns_with Q (k r out) m
  end.

(** The device has [n] swapchain images, and the loop of [main_loop] is
    only entered with vectors of the sizes [create_sync_objects] gives them. *)
Definition sized (n : nat) (c : config) : Prop :=
  swapchain_images (dev (now c)) = n /\
  match ctl c with
  | Run ph p => returns_with (leaves n ph) p (mem (now c))
  | Loop => shaped n (mem (now c))
  | _ => True
  end.

End Conduct.

(** * Proofs *)

Import Selector.

Section U32Facts.
Local Open Scope Z_scope.

Lemma wrap_ok z : U32.ok (U32.wrap z).
Proof.
  unfold U32.ok, U32.wrap, U32.UINT32_MAX.
  pose proof (Z.mod_pos_bound z 4294967296). lia.
Qed.

Lemma wrap_small z : 0 <= z <= U32.UINT32_MAX -> U32.wrap z = z.
Proof. unfold U32.wrap, U32.UINT32_MAX. intros H. apply Z.mod_small. lia. Qed.

Lemma add_ok a b : U32.ok (U32.add a b).
Proof. apply wrap_ok. Qed.

Lemma add_small a b : 0 <= a + b <= U32.UINT32_MAX -> U32.add a b = a + b.
Proof. apply wrap_small. Qed.

End U32Facts.

Section SelectorFacts.
Local Open Scope Z_scope.

Lemma multimap_insert_sorted kv m : sorted m -> sorted (multimap_insert kv m).
Proof.
  induction m as [|kv' rest IH]; simpl.
  - intros _. split; [constructor | exact I].
  - intros [Hhd Htl]. destruct (Z.ltb_spec kv.1 kv'.1) as [Hlt|Hge]; simpl.
    + split; [|split; assumption].
      constructor; [lia|]. eapply Forall_impl; [exact Hhd|]. simpl. intros; lia.
    + split; [|apply IH; assumption].
      clear IH Htl. induction rest as [|x rest IHr]; simpl.
      * constructor; [lia | constructor].
      * inversion Hhd; subst.
        destruct (kv.1 <? x.1).
        -- constructor; [lia | constructor; assumption].
        -- constructor; [assumption | apply IHr; assumption].
Qed.

Lemma multimap_insert_nonempty kv m : multimap_insert kv m <> [].
Proof. destruct m as [|kv' rest]; simpl; [|destruct (kv.1 <? kv'.1)]; discriminate. Qed.

Lemma last_cons_nonempty {A} (x : A) l : l <> [] -> last (x :: l) = last l.
Proof. destruct l; [congruence | reflexivity]. Qed.

Lemma sorted_last_ge m b :
  sorted m -> last m = Some b -> Forall (fun kv => kv.1 <= b.1) m.
Proof.
  induction m as [|kv rest IH]; simpl; [constructor|].
  intros [Hhd Htl] Hlast. destruct rest as [|kv' rest'].
  - simpl in Hlast. injection Hlast as ->. constructor; [lia | constructor].
  - rewrite last_cons_cons in Hlast. specialize (IH Htl Hlast).
    constructor; [|exact IH].
    assert (Hin : b ∈ kv' :: rest') by (apply last_Some_elem_of; exact Hlast).
    rewrite Forall_forall in Hhd. apply Hhd. exact Hin.
Qed.

Lemma multimap_insert_last kv m :
  sorted m ->
  last (multimap_insert kv m) =
    match last m with
    | None => Some kv
    | Some b => if kv.1 <? b.1 then Some b else Some kv
    end.
Proof.
  induction m as [|kv' rest IH]; [reflexivity|].
  intros Hs. pose proof Hs as [Hhd Htl]. simpl multimap_insert.
  destruct (Z.ltb_spec kv.1 kv'.1) as [Hlt|Hge].
  - rewrite last_cons_cons.
    destruct (last (kv' :: rest)) as [b|] eqn:Hb; [|by apply last_None in Hb].
    pose proof (sorted_last_ge _ _ Hs Hb) as Hall.
    inversion Hall; subst.
    destruct (Z.ltb_spec kv.1 b.1); [reflexivity | lia].
  - rewrite last_cons_nonempty by apply multimap_insert_nonempty.
    rewrite (IH Htl). destruct rest as [|kv'' rest'].
    + simpl. destruct (Z.ltb_spec kv.1 kv'.1); [lia | reflexivity].
    + rewrite last_cons_cons. reflexivity.
Qed.

Lemma rate_from_last m devices :
  sorted m ->
  let f := fun candidates device =>
             multimap_insert (rate_device_suitability device, device) candidates in
  sorted (foldl f m devices) /\
  last (foldl f m devices) = foldl keep_later (last m) devices.
Proof.
  intros Hs f. revert m Hs. induction devices as [|d rest IH]; intros m Hs; simpl.
  - split; [assumption | reflexivity].
  - assert (Hs' : sorted (f m d)) by (apply multimap_insert_sorted; assumption).
    destruct (IH _ Hs') as [H1 H2]. split; [exact H1|].
    rewrite H2. f_equal. unfold f. rewrite multimap_insert_last by assumption.
    unfold keep_later. destruct (last m); reflexivity.
Qed.

Lemma rbegin_rate_all devices :
  rbegin (rate_all devices) = foldl keep_later None devices.
Proof.
  unfold rbegin, rate_all.
  exact (proj2 (rate_from_last [] devices I)).
Qed.

Lemma keep_later_spec devices :
  match foldl keep_later None devices with
  | None => devices = []
  | Some b => last_max devices b
  end.
Proof.
  induction devices as [|d l IH] using rev_ind; [reflexivity|].
  rewrite foldl_app. simpl.
  destruct (foldl keep_later None l) as [b|]; simpl.
  - destruct IH as [Hb (before & after & -> & Hbe & Haf)].
    destruct (Z.ltb_spec (rate_device_suitability d) b.1) as [Hlt|Hge].
    + split; [exact Hb|]. exists before, (after ++ [d]).
      split; [by rewrite <- app_assoc|]. split; [exact Hbe|].
      apply Forall_app. split; [exact Haf|]. constructor; [exact Hlt | constructor].
    + split; [reflexivity|]. exists (before ++ b.2 :: after), [].
      split; [reflexivity|]. split; [|constructor]. simpl.
      apply Forall_app. split.
      * eapply Forall_impl; [exact Hbe|]. simpl; intros; lia.
      * constructor; [lia|]. eapply Forall_impl; [exact Haf|]. simpl; intros; lia.
  - subst l. split; [reflexivity|]. exists [], []. repeat split; constructor.
Qed.

Lemma last_max_elem devices b d :
  last_max devices b -> d ∈ devices -> rate_device_suitability d <= b.1.
Proof.
  intros [Hb (before & after & -> & Hbe & Haf)] Hin.
  rewrite Forall_forall in Hbe. rewrite Forall_forall in Haf.
  apply elem_of_app in Hin as [Hin|Hin]; [by apply Hbe|].
  apply elem_of_cons in Hin as [->|Hin]; [|specialize (Haf _ Hin); lia].
  rewrite <- Hb. lia.
Qed.

Lemma last_max_in devices b : last_max devices b -> b.2 ∈ devices.
Proof.
  intros [_ (before & after & -> & _)]. apply elem_of_app. right. left.
Qed.

(** [pick_physical_device] through the running maximum. *)
Lemma pick_physical_device_unfold devices :
  devices <> [] ->
  exists b, last_max devices b /\
    pick_physical_device devices =
      if 0 <? b.1 then Returned b.2 else Thrown "Failed to find a suitable GPU!".
Proof.
  intros Hne. unfold pick_physical_device.
  rewrite bool_decide_eq_false_2 by (destruct devices; [congruence | simpl; lia]).
  rewrite rbegin_rate_all. pose proof (keep_later_spec devices) as Hspec.
  destruct (foldl keep_later None devices) as [b|]; [|congruence].
  exists b. split; [exact Hspec | reflexivity].
Qed.

Lemma last_max_unique devices b b' : last_max devices b -> last_max devices b' -> b = b'.
Proof.
  intros Hb Hb'.
  pose proof (last_max_elem _ _ _ Hb (last_max_in _ _ Hb')) as H1.
  pose proof (last_max_elem _ _ _ Hb' (last_max_in _ _ Hb)) as H2.
  destruct Hb as [Hs (l1 & l2 & E & Hbe & Haf)].
  destruct Hb' as [Hs' (l1' & l2' & E' & Hbe' & Haf')].
  assert (Hk : b.1 = b'.1) by lia.
  assert (Hd : b.2 = b'.2); [|destruct b, b'; simpl in *; congruence].
  rewrite E in E'. clear E.
  revert l1' E' Hbe'. induction l1 as [|x l1 IH]; intros l1' E' Hbe'.
  - destruct l1' as [|y l1']; simpl in E'; [congruence|].
    injection E' as <- E'. rewrite Forall_forall in Haf.
    assert (Hin : b'.2 ∈ l2) by (rewrite E'; apply elem_of_app; right; left).
    specialize (Haf _ Hin). lia.
  - destruct l1' as [|y l1']; simpl in E'.
    + injection E' as -> E'. rewrite Forall_forall in Haf'.
      assert (Hin : b.2 ∈ l2') by (rewrite <- E'; apply elem_of_app; right; left).
      specialize (Haf' _ Hin). lia.
    + injection E' as <- E'. inversion Hbe; inversion Hbe'; subst. eauto.
Qed.

Lemma ineligible_scores_zero device :
  eligible device = false -> rate_device_suitability device = 0.
Proof.
  unfold eligible, rate_device_suitability.
  destruct (geometryShader device); simpl; [|reflexivity].
  intros ->. reflexivity.
Qed.

Lemma eligible_score device :
  eligible device = true ->
  rate_device_suitability device =
    U32.add (if discrete device then U32.add 0 1000 else 0) (maxImageDimension2D device).
Proof.
  unfold eligible, rate_device_suitability, discrete.
  intros [-> ->]%andb_true_iff. simpl.
  destruct (decide (deviceType device = VK_PHYSICAL_DEVICE_TYPE_DISCRETE_GPU)) as [e|n].
  - by rewrite bool_decide_eq_true_2.
  - by rewrite bool_decide_eq_false_2.
Qed.

Lemma last_max_split before d after :
  Forall (fun x => rate_device_suitability x <= rate_device_suitability d) before ->
  Forall (fun x => rate_device_suitability x < rate_device_suitability d) after ->
  last_max (before ++ d :: after) (rate_device_suitability d, d).
Proof.
  intros Hbe Haf. split; [reflexivity|]. exists before, after. auto.
Qed.

Example rate_discrete_4096 :
  rate_device_suitability (gpu 1 VK_PHYSICAL_DEVICE_TYPE_DISCRETE_GPU 4096) = 5096.
Proof. reflexivity. Qed.

Example rate_integrated_16384 :
  rate_device_suitability (gpu 2 VK_PHYSICAL_DEVICE_TYPE_INTEGRATED_GPU 16384) = 16384.
Proof. reflexivity. Qed.

Example rate_headless : rate_device_suitability (headless 3) = 0.
Proof. reflexivity. Qed.

(** The discrete bonus wraps around with the sum: a discrete device
    reporting 2^32 - 1000 scores 0. *)
Example rate_wraps :
  rate_device_suitability (gpu 4 VK_PHYSICAL_DEVICE_TYPE_DISCRETE_GPU 4294966296) = 0.
Proof. reflexivity. Qed.

(** C1, as stated, fails: an eligible integrated device reporting 16384 beats
    an eligible discrete device reporting 4096 (16384 > 1000 + 4096). *)
Lemma discrete_always_wins_counterexample :
  ~ discrete_always_wins
      [gpu 1 VK_PHYSICAL_DEVICE_TYPE_DISCRETE_GPU 4096;
       gpu 2 VK_PHYSICAL_DEVICE_TYPE_INTEGRATED_GPU 16384].
Proof.
  intros H. destruct H as (d & Hpick & Hd).
  - exists (gpu 1 VK_PHYSICAL_DEVICE_TYPE_DISCRETE_GPU 4096).
    split; [left | split; reflexivity].
  - exists (gpu 2 VK_PHYSICAL_DEVICE_TYPE_INTEGRATED_GPU 16384).
    split; [right; left | split; reflexivity].
  - vm_compute in Hpick. injection Hpick as <-. vm_compute in Hd. discriminate.
Qed.

(** C1 (amended): a list with an eligible discrete device [d0] and an eligible
    integrated device yields an eligible discrete device, provided
    [maxImageDimension2D d0 + 1000] does not overflow [uint32_t] and exceeds
    the [maxImageDimension2D] of every eligible device that is not discrete. *)
Theorem discrete_wins_within_bonus devices d0 :
  Forall (fun d => U32.ok (maxImageDimension2D d)) devices ->
  d0 ∈ devices -> eligible d0 = true -> discrete d0 = true ->
  Exists (fun e => eligible e = true /\ integrated e = true) devices ->
  maxImageDimension2D d0 + 1000 <= U32.UINT32_MAX ->
  Forall (fun e => eligible e = true -> discrete e = false ->
                   maxImageDimension2D e < maxImageDimension2D d0 + 1000) devices ->
  exists d, pick_physical_device devices = Returned d /\
            d ∈ devices /\ eligible d = true /\ discrete d = true.
Proof.
  intros Hok Hin0 He0 Hd0 _ Hfit Hgap.
  rewrite Forall_forall in Hok. rewrite Forall_forall in Hgap.
  destruct (pick_physical_device_unfold devices) as (b & Hb & Hpick).
  { intros ->. by apply elem_of_nil in Hin0. }
  pose proof (Hok _ Hin0) as Hok0. unfold U32.ok in Hok0.
  assert (Hs0 : rate_device_suitability d0 = maxImageDimension2D d0 + 1000).
  { rewrite eligible_score by assumption. rewrite Hd0.
    rewrite (add_small 0 1000) by (unfold U32.UINT32_MAX; lia).
    rewrite add_small by lia. lia. }
  pose proof (last_max_elem _ _ _ Hb Hin0) as Hmax.
  pose proof (last_max_in _ _ Hb) as Hinb.
  destruct Hb as [Hsb _].
  exists b.2. rewrite Hpick.
  destruct (Z.ltb_spec 0 b.1) as [_|Hle]; [|lia].
  split; [reflexivity|]. split; [assumption|].
  destruct (eligible b.2) eqn:Heb.
  - split; [reflexivity|]. destruct (discrete b.2) eqn:Hdb; [reflexivity|].
    exfalso. rewrite eligible_score in Hsb by assumption. rewrite Hdb in Hsb.
    pose proof (Hok _ Hinb) as Hokb. unfold U32.ok in Hokb.
    rewrite add_small in Hsb by lia.
    specialize (Hgap _ Hinb Heb Hdb). lia.
  - apply ineligible_scores_zero in Heb. lia.
Qed.

Lemma discrete_wins_within_bonus_witness :
  exists d,
    pick_physical_device
      [gpu 2 VK_PHYSICAL_DEVICE_TYPE_INTEGRATED_GPU 4096;
       gpu 1 VK_PHYSICAL_DEVICE_TYPE_DISCRETE_GPU 4096] = Returned d /\
    d ∈ [gpu 2 VK_PHYSICAL_DEVICE_TYPE_INTEGRATED_GPU 4096;
         gpu 1 VK_PHYSICAL_DEVICE_TYPE_DISCRETE_GPU 4096] /\
    eligible d = true /\ discrete d = true.
Proof.
  apply (discrete_wins_within_bonus _ (gpu 1 VK_PHYSICAL_DEVICE_TYPE_DISCRETE_GPU 4096)).
  - repeat constructor; vm_compute; congruence.
  - right; left.
  - reflexivity.
  - reflexivity.
  - left. split; reflexivity.
  - vm_compute. congruence.
  - repeat constructor; vm_compute; congruence.
Defined.

(** C2, as stated, fails: of two devices with the same maximal score the
    second one is selected. *)
Lemma first_max_wins_counterexample :
  ~ first_max_wins
      [gpu 1 VK_PHYSICAL_DEVICE_TYPE_DISCRETE_GPU 4096;
       gpu 2 VK_PHYSICAL_DEVICE_TYPE_DISCRETE_GPU 4096].
Proof.
  intros H.
  specialize (H [] (gpu 1 VK_PHYSICAL_DEVICE_TYPE_DISCRETE_GPU 4096)
                [gpu 2 VK_PHYSICAL_DEVICE_TYPE_DISCRETE_GPU 4096] eq_refl).
  assert (Hpick : pick_physical_device
            [gpu 1 VK_PHYSICAL_DEVICE_TYPE_DISCRETE_GPU 4096;
             gpu 2 VK_PHYSICAL_DEVICE_TYPE_DISCRETE_GPU 4096]
          = Returned (gpu 2 VK_PHYSICAL_DEVICE_TYPE_DISCRETE_GPU 4096))
    by reflexivity.
  rewrite Hpick in H.
  assert (Hne : Returned (gpu 2 VK_PHYSICAL_DEVICE_TYPE_DISCRETE_GPU 4096)
                <> Returned (gpu 1 VK_PHYSICAL_DEVICE_TYPE_DISCRETE_GPU 4096))
    by (intros E; discriminate E).
  apply Hne, H.
  - reflexivity.
  - constructor.
  - repeat constructor. vm_compute. congruence.
Qed.

(** C2 (amended): among the devices of maximal score the last one in
    enumeration order is selected: a device of positive score, preceded by
    devices that score no more and followed by devices that score strictly
    less, is the one returned. *)
Theorem last_max_wins before d after :
  0 < rate_device_suitability d ->
  Forall (fun x => rate_device_suitability x <= rate_device_suitability d) before ->
  Forall (fun x => rate_device_suitability x < rate_device_suitability d) after ->
  pick_physical_device (before ++ d :: after) = Returned d.
Proof.
  intros Hpos Hbe Haf.
  destruct (pick_physical_device_unfold (before ++ d :: after)) as (b & Hb & ->).
  { by destruct before. }
  rewrite (last_max_unique _ _ _ Hb (last_max_split _ _ _ Hbe Haf)). simpl.
  destruct (Z.ltb_spec 0 (rate_device_suitability d)); [reflexivity | lia].
Qed.

Lemma last_max_wins_witness :
  pick_physical_device
    ([gpu 1 VK_PHYSICAL_DEVICE_TYPE_DISCRETE_GPU 4096] ++
      gpu 2 VK_PHYSICAL_DEVICE_TYPE_DISCRETE_GPU 4096 ::
      [gpu 3 VK_PHYSICAL_DEVICE_TYPE_INTEGRATED_GPU 4096])
  = Returned (gpu 2 VK_PHYSICAL_DEVICE_TYPE_DISCRETE_GPU 4096).
Proof.
  apply last_max_wins.
  - vm_compute. reflexivity.
  - repeat constructor. vm_compute. congruence.
  - repeat constructor.
Defined.

(** C3: when every device scores 0 (in particular when none is eligible),
    [pick_physical_device] selects nothing and throws: the "no GPUs" error on
    an empty enumeration, "Failed to find a suitable GPU!" otherwise. *)
Theorem no_suitable_device devices :
  Forall (fun d => rate_device_suitability d = 0) devices ->
  pick_physical_device devices =
    Thrown (match devices with
            | [] => "Failed to find GPUs with Vulkan support!"
            | _ :: _ => "Failed to find a suitable GPU!"
            end).
Proof.
  intros Hzero. destruct devices as [|d0 rest]; [reflexivity|].
  destruct (pick_physical_device_unfold (d0 :: rest)) as (b & Hb & ->); [done|].
  rewrite Forall_forall in Hzero.
  pose proof (Hzero _ (last_max_in _ _ Hb)) as Hz. destruct Hb as [Hsb _].
  rewrite Hsb, Hz. reflexivity.
Qed.

Lemma no_suitable_device_witness :
  pick_physical_device [headless 3; headless 4] = Thrown "Failed to find a suitable GPU!".
Proof.
  apply (no_suitable_device [headless 3; headless 4]).
  repeat constructor.
Defined.

End SelectorFacts.

Import Negotiator.

Section NegotiatorFacts.
Local Open Scope Z_scope.

(** The scenario of the specification: 2 images minimum, 2 maximum. *)
Example image_count_2_2 :
  create_swap_chain_image_count
    {| minImageCount := 2; maxImageCount := 2; currentExtent := extent 800 600;
       minImageExtent := extent 1 1; maxImageExtent := extent 4096 4096 |} = 2.
Proof. reflexivity. Qed.

Example image_count_unbounded :
  create_swap_chain_image_count
    {| minImageCount := 2; maxImageCount := 0; currentExtent := extent 800 600;
       minImageExtent := extent 1 1; maxImageExtent := extent 4096 4096 |} = 3.
Proof. reflexivity. Qed.

Example extent_clamped :
  choose_swap_extent
    {| minImageCount := 2; maxImageCount := 0;
       currentExtent := extent U32.UINT32_MAX U32.UINT32_MAX;
       minImageExtent := extent 1 1; maxImageExtent := extent 640 480 |} = extent 640 480.
Proof. reflexivity. Qed.

(** C4, as stated, fails on two kinds of snapshot: a current extent that is
    not the sentinel is returned as it is, also when it lies outside the
    bounds; and with the sentinel, a minimum above the maximum wins. *)
Lemma extent_within_counterexample :
  let fixed := {| minImageCount := 2; maxImageCount := 3;
                  currentExtent := extent 800 600;
                  minImageExtent := extent 1 1;
                  maxImageExtent := extent 640 480 |} in
  let crossed := {| minImageCount := 2; maxImageCount := 3;
                    currentExtent := extent U32.UINT32_MAX U32.UINT32_MAX;
                    minImageExtent := extent 1024 768;
                    maxImageExtent := extent 640 480 |} in
  (capabilities_ok fixed /\ ~ extent_within fixed (choose_swap_extent fixed)) /\
  (capabilities_ok crossed /\ ~ extent_within crossed (choose_swap_extent crossed)).
Proof.
  unfold capabilities_ok, extent_ok, extent_within, U32.ok. simpl.
  repeat split; try (vm_compute; congruence); intros H; vm_compute in H; tauto.
Qed.

(** C4 (amended): when [minImageExtent] does not exceed [maxImageExtent] on
    either axis, and the current extent is the sentinel or itself within the
    bounds, the chosen extent is within the bounds on both axes. *)
Theorem choose_swap_extent_within capabilities :
  width (minImageExtent capabilities) <= width (maxImageExtent capabilities) ->
  height (minImageExtent capabilities) <= height (maxImageExtent capabilities) ->
  (width (currentExtent capabilities) <> U32.UINT32_MAX ->
   extent_within capabilities (currentExtent capabilities)) ->
  extent_within capabilities (choose_swap_extent capabilities).
Proof.
  intros Hw Hh Hcur. unfold choose_swap_extent.
  destruct (decide (width (currentExtent capabilities) <> U32.UINT32_MAX)) as [Hne|Hsent].
  - rewrite bool_decide_eq_true_2 by assumption. auto.
  - rewrite bool_decide_eq_false_2 by assumption.
    unfold extent_within; simpl. lia.
Qed.

Lemma choose_swap_extent_within_witness :
  extent_within
    {| minImageCount := 2; maxImageCount := 3;
       currentExtent := extent U32.UINT32_MAX U32.UINT32_MAX;
       minImageExtent := extent 1024 768; maxImageExtent := extent 4096 4096 |}
    (choose_swap_extent
       {| minImageCount := 2; maxImageCount := 3;
          currentExtent := extent U32.UINT32_MAX U32.UINT32_MAX;
          minImageExtent := extent 1024 768; maxImageExtent := extent 4096 4096 |}).
Proof.
  apply choose_swap_extent_within; simpl.
  - lia.
  - lia.
  - intros H. exfalso. apply H. reflexivity.
Defined.

(** Without the sentinel the current extent is returned unchanged. *)
Lemma choose_swap_extent_current capabilities :
  width (currentExtent capabilities) <> U32.UINT32_MAX ->
  choose_swap_extent capabilities = currentExtent capabilities.
Proof.
  intros H. unfold choose_swap_extent. by rewrite bool_decide_eq_true_2.
Qed.

(** C5, as stated, fails: with a minimum above a nonzero maximum the count
    is clamped below the minimum, and a minimum of [UINT32_MAX] wraps the
    request to 0. *)
Lemma image_count_bounded_counterexample :
  let crossed := {| minImageCount := 5; maxImageCount := 3;
                    currentExtent := extent 800 600;
                    minImageExtent := extent 1 1;
                    maxImageExtent := extent 4096 4096 |} in
  let wrapped := {| minImageCount := U32.UINT32_MAX; maxImageCount := U32.UINT32_MAX;
                    currentExtent := extent 800 600;
                    minImageExtent := extent 1 1;
                    maxImageExtent := extent 4096 4096 |} in
  (capabilities_ok crossed /\ create_swap_chain_image_count crossed = 3 /\
   ~ image_count_bounded crossed) /\
  (capabilities_ok wrapped /\ create_swap_chain_image_count wrapped = 0 /\
   ~ image_count_bounded wrapped).
Proof.
  unfold capabilities_ok, extent_ok, image_count_bounded, U32.ok. simpl.
  repeat split; try (vm_compute; congruence);
    intros H; vm_compute in H; destruct H as [H1 H2]; try reflexivity;
    (apply H1; reflexivity) || (apply H2; reflexivity).
Qed.

(** C5 (amended): the count is [minImageCount + 1] computed in [uint32_t],
    replaced by [maxImageCount] when that is nonzero and smaller; when
    [maxImageCount > 0] the count never exceeds it, and it is at least
    [minImageCount] provided [minImageCount <= maxImageCount] and
    [minImageCount + 1] does not wrap around. *)
Theorem image_count_clamped capabilities :
  U32.ok (minImageCount capabilities) ->
  U32.ok (maxImageCount capabilities) ->
  create_swap_chain_image_count capabilities =
    (if decide (maxImageCount capabilities <> 0 /\
                maxImageCount capabilities < U32.add (minImageCount capabilities) 1)
     then maxImageCount capabilities
     else U32.add (minImageCount capabilities) 1) /\
  (0 < maxImageCount capabilities ->
   create_swap_chain_image_count capabilities <= maxImageCount capabilities) /\
  (0 < maxImageCount capabilities ->
   minImageCount capabilities <= maxImageCount capabilities ->
   minImageCount capabilities < U32.UINT32_MAX ->
   minImageCount capabilities <= create_swap_chain_image_count capabilities).
Proof.
  intros Hmin Hmax. unfold U32.ok in *. unfold create_swap_chain_image_count.
  pose proof (add_ok (minImageCount capabilities) 1) as Hreq. unfold U32.ok in Hreq.
  set (request := U32.add (minImageCount capabilities) 1) in *.
  destruct (Z.ltb_spec 0 (maxImageCount capabilities)) as [Hpos|Hzero];
    destruct (Z.ltb_spec (maxImageCount capabilities) request) as [Hlt|Hge]; simpl.
  - split; [by rewrite decide_True by lia|]. split; [lia|]. intros _ Hle _. lia.
  - split; [by rewrite decide_False by lia|]. split; [lia|].
    intros _ Hle Hno. subst request. rewrite add_small by lia. lia.
  - split; [by rewrite decide_False by lia|]. split; intros; lia.
  - split; [by rewrite decide_False by lia|]. split; intros; lia.
Qed.

Lemma image_count_clamped_witness :
  let capabilities := {| minImageCount := 2; maxImageCount := 2;
                         currentExtent := extent 800 600;
                         minImageExtent := extent 1 1;
                         maxImageExtent := extent 4096 4096 |} in
  create_swap_chain_image_count capabilities = 2 /\
  create_swap_chain_image_count capabilities <= maxImageCount capabilities /\
  minImageCount capabilities <= create_swap_chain_image_count capabilities.
Proof.
  intros capabilities.
  destruct (image_count_clamped capabilities) as (Heq & Hup & Hlow).
  - vm_compute. split; congruence.
  - vm_compute. split; congruence.
  - split; [exact Heq|]. split.
    + apply Hup. reflexivity.
    + apply Hlow; vm_compute; congruence.
Defined.

End NegotiatorFacts.

Import Sync.

Section SyncFacts.
Local Arguments Nat.modulo : simpl never.

(** *** Counting events *)

Lemma submitted_snoc h e :
  submitted (h ++ [e]) = submitted h + (if is_submit e then 1 else 0).
Proof.
  unfold submitted. rewrite List.filter_app, length_app. simpl.
  destruct (is_submit e); simpl; lia.
Qed.

Lemma completed_snoc h e :
  completed (h ++ [e]) = completed h + (if is_completion e then 1 else 0).
Proof.
  unfold completed. rewrite List.filter_app, length_app. simpl.
  destruct (is_completion e); simpl; lia.
Qed.

Lemma was_reset_snoc h e f : was_reset h f -> was_reset (h ++ [e]) f.
Proof.
  intros (r & out & Hin). exists r, out. apply elem_of_app. by left.
Qed.

Lemma was_acquired_snoc h e i : was_acquired h i -> was_acquired (h ++ [e]) i.
Proof.
  intros (sem & r & Hin). exists sem, r. apply elem_of_app. by left.
Qed.

(** *** Progress of the GPU *)

Lemma gpu_step_mem w w' : gpu_step w w' -> mem w' = mem w.
Proof. by destruct 1. Qed.

Lemma gpu_step_consistent w w' : consistent w -> gpu_step w w' -> consistent w'.
Proof.
  intros [Hnf Hni Hown Hcnt Hres Hnull Hsize Hacq] Hstep.
  destruct Hstep as [h d m before f i after Hp]. simpl in *.
  rewrite Hp in *. clear Hp.
  rewrite fmap_app, fmap_cons in Hnf, Hni. simpl in Hnf, Hni.
  apply NoDup_app in Hnf as (Hnf1 & Hnf2 & Hnf3).
  apply NoDup_cons in Hnf3 as [Hnf3 Hnf4].
  apply NoDup_app in Hni as (Hni1 & Hni2 & Hni3).
  apply NoDup_cons in Hni3 as [Hni3 Hni4].
  destruct (Hown f i) as [Hf _]; [apply elem_of_app; right; left|].
  split; simpl.
  - rewrite fmap_app. apply NoDup_app. split; [done|]. split; [|done].
    intros x Hx Hx'. apply (Hnf2 x Hx). by right.
  - rewrite fmap_app. apply NoDup_app. split; [done|]. split; [|done].
    intros x Hx Hx'. apply (Hni2 x Hx). by right.
  - intros f' i' Hin.
    assert (Hold : (f', i') ∈ before ++ (f, i) :: after).
    { apply elem_of_app in Hin as [Hin|Hin]; apply elem_of_app; [by left|].
      right. by right. }
    destruct (Hown _ _ Hold) as [H1 H2]. split; [|done].
    rewrite lookup_insert_ne; [done|]. intros <-.
    apply elem_of_app in Hin as [Hin|Hin].
    + apply (Hnf2 f); [|by left].
      by apply (list_elem_of_fmap_2 fst) in Hin.
    + apply Hnf3. by apply (list_elem_of_fmap_2 fst) in Hin.
  - rewrite submitted_snoc, completed_snoc. simpl.
    rewrite Hcnt. rewrite !length_app. simpl. lia.
  - intros g Hg. apply was_reset_snoc. apply Hres.
    destruct (decide (f = g)) as [->|Hne].
    + by rewrite lookup_insert_eq in Hg.
    + by rewrite lookup_insert_ne in Hg.
  - rewrite lookup_insert_ne; [done|]. intros ->. by rewrite Hnull in Hf.
  - rewrite map_size_insert_Some; [done|]. by rewrite Hf.
  - intros i' g Hi Hg. apply was_acquired_snoc. eauto.
Qed.

Lemma evolves_consistent w w' : consistent w -> rtc gpu_step w w' -> consistent w'.
Proof. intros Hc Hev. induction Hev; eauto using gpu_step_consistent. Qed.

Lemma evolves_mem w w' : rtc gpu_step w w' -> mem w' = mem w.
Proof.
  induction 1 as [|x y z Hxy _ IH]; [done|]. rewrite IH. by apply gpu_step_mem.
Qed.

Lemma evolves_history w w' e : rtc gpu_step w w' -> e ∈ history w -> e ∈ history w'.
Proof.
  induction 1 as [|x y z Hxy _ IH]; [done|]. intros Hin. apply IH.
  destruct Hxy; simpl in *. apply elem_of_app. by left.
Qed.

Lemma evolves_signaled w w' f :
  rtc gpu_step w w' -> fences (dev w) !! f = Some true -> fences (dev w') !! f = Some true.
Proof.
  induction 1 as [|x y z Hxy _ IH]; [done|]. intros Hf. apply IH.
  destruct Hxy as [h d m before g i after Hp]; simpl in *.
  destruct (decide (g = f)) as [->|Hne].
  - by rewrite lookup_insert_eq.
  - by rewrite lookup_insert_ne.
Qed.

Lemma evolves_pending w w' x :
  rtc gpu_step w w' -> x ∈ pending (dev w') -> x ∈ pending (dev w).
Proof.
  induction 1 as [|a b c Hab _ IH]; [done|]. intros Hin. specialize (IH Hin).
  destruct Hab as [h d m before g i after Hp]; simpl in *. rewrite Hp.
  apply elem_of_app in IH as [IH|IH]; apply elem_of_app; [by left|].
  right. by right.
Qed.

Lemma evolves_no_pending w w' :
  rtc gpu_step w w' -> pending (dev w) = [] -> pending (dev w') = [].
Proof.
  intros Hev Hnil. destruct (pending (dev w')) as [|x l] eqn:E; [done|].
  assert (Hin : x ∈ pending (dev w)).
  { eapply evolves_pending; [done|]. rewrite E. left. }
  rewrite Hnil in Hin. by apply elem_of_nil in Hin.
Qed.

Lemma evolves_fences_idle w w' :
  rtc gpu_step w w' -> pending (dev w) = [] -> fences (dev w') = fences (dev w).
Proof.
  induction 1 as [|a b c Hab _ IH]; [done|]. intros Hnil.
  destruct Hab as [h d m before g i after Hp]; simpl in *.
  rewrite Hnil in Hp. by destruct before.
Qed.

(** An unsignaled fence with no batch pending on it stays unsignaled. *)
Lemma evolves_unsignaled w w' f :
  rtc gpu_step w w' ->
  fences (dev w) !! f = Some false -> f ∉ (pending (dev w)).*1 ->
  fences (dev w') !! f = Some false.
Proof.
  induction 1 as [|a b c Hab _ IH]; [done|]. intros Hf Hnot. apply IH.
  - destruct Hab as [h d m before g i after Hp]; simpl in *.
    rewrite lookup_insert_ne; [done|]. intros ->. apply Hnot. rewrite Hp.
    apply (list_elem_of_fmap_2' fst _ (f, i)); [|done].
    apply elem_of_app. right. left.
  - intros Hin. apply Hnot. apply list_elem_of_fmap in Hin as (x & -> & Hx).
    apply list_elem_of_fmap_2. eapply (evolves_pending a b); [|done].
    by apply rtc_once.
Qed.

Lemma safe_evolves Q p w w' : rtc gpu_step w w' -> safe Q p w -> safe Q p w'.
Proof.
  revert w w'. induction p as [a|what| |k IH|m' k IH|c k IH]; intros w w' Hev; simpl; try done.
  - intros Hs w1 Hev1. apply Hs. by etrans.
  - rewrite (evolves_mem _ _ Hev). by apply IH.
  - intros Hs w1 Hev1. apply Hs. by etrans.
  - intros Hs w1 Hev1. apply Hs. by etrans.
Qed.

(** *** Fences and slots stay *)

Lemma keeps_refl w : keeps w w.
Proof. by split. Qed.

Lemma keeps_trans w1 w2 w3 : keeps w1 w2 -> keeps w2 w3 -> keeps w1 w3.
Proof.
  intros (H1 & H2 & H3) (H1' & H2' & H3'). split; [auto|].
  split; congruence.
Qed.

Lemma keeps_gpu_step w w' : gpu_step w w' -> keeps w w'.
Proof.
  destruct 1 as [h d m before f i after Hp]. split; [|done]. simpl.
  intros g Hg. destruct (decide (f = g)) as [->|Hne].
  - by rewrite lookup_insert_eq.
  - by rewrite lookup_insert_ne.
Qed.

Lemma keeps_evolves w w' : rtc gpu_step w w' -> keeps w w'.
Proof.
  induction 1 as [|x y z Hxy _ IH]; [apply keeps_refl|].
  eapply keeps_trans; [|done]. by apply keeps_gpu_step.
Qed.

Lemma keeps_returned w c r out d' :
  api (dev w) c r out d' -> keeps w (returned w c r out d').
Proof.
  intros Hapi. split; [|done]. simpl. intros g Hg.
  inversion Hapi; subst; simpl; try done.
  - rewrite lookup_insert_ne; [done|]. intros ->.
    match goal with H : fences _ !! _ = None |- _ => rewrite H in Hg end.
    by destruct Hg.
  - destruct (decide (f = g)) as [->|Hne].
    + by rewrite lookup_insert_eq.
    + by rewrite lookup_insert_ne.
Qed.

Lemma keeps_store w m' :
  in_flight_fences_ m' = in_flight_fences_ (mem w) ->
  current_frame_ m' = current_frame_ (mem w) ->
  keeps w (set_mem m' w).
Proof. by split. Qed.

Lemma ready_keeps w w' : ready w -> keeps w w' -> ready w'.
Proof.
  intros [Hcur Hslots] (Hk & Hf & Hc). split; [by rewrite Hc|].
  intros slot Hslot. destruct (Hslots slot Hslot) as (f & Hf' & Hs).
  exists f. rewrite Hf. auto.
Qed.

(** *** The invariant across the calls and writes of the protocol *)

Lemma consistent_returned w c r out :
  consistent w -> is_submit (EvCall c r out) = false ->
  consistent (returned w c r out (dev w)).
Proof.
  intros [Hnf Hni Hown Hcnt Hres Hnull Hsize Hacq] Hsub. split; simpl; try done.
  - rewrite submitted_snoc, completed_snoc, Hsub. simpl. lia.
  - intros f Hf. apply was_reset_snoc. auto.
  - intros i g Hi Hg. apply was_acquired_snoc. eauto.
Qed.

Lemma pending_unsignaled w f :
  consistent w -> f ∈ (pending (dev w)).*1 -> fences (dev w) !! f = Some false.
Proof.
  intros Hc Hin. apply list_elem_of_fmap in Hin as ([f' i] & -> & Hin).
  by destruct (pending_owned _ Hc _ _ Hin).
Qed.

Lemma pending_image_owner w i :
  consistent w -> i ∈ (pending (dev w)).*2 ->
  exists f, images_in_flight_ (mem w) !! i = Some f /\ fences (dev w) !! f = Some false.
Proof.
  intros Hc Hin. apply list_elem_of_fmap in Hin as ([f i'] & -> & Hin).
  destruct (pending_owned _ Hc _ _ Hin). eauto.
Qed.

Lemma consistent_reset w f out :
  consistent w -> fences (dev w) !! f = Some true ->
  consistent (returned w (vkResetFences f) VK_SUCCESS out
                (set_fences (<[f := false]> (fences (dev w))) (dev w))).
Proof.
  intros Hc Hf. pose proof Hc as [Hnf Hni Hown Hcnt Hres Hnull Hsize Hacq].
  split; simpl; try done.
  - intros f' i Hin. destruct (Hown _ _ Hin) as [H1 H2]. split; [|done].
    destruct (decide (f = f')) as [->|Hne].
    + by rewrite lookup_insert_eq.
    + by rewrite lookup_insert_ne.
  - rewrite submitted_snoc, completed_snoc. simpl. lia.
  - intros g Hg. destruct (decide (f = g)) as [->|Hne].
    + exists VK_SUCCESS, out. apply elem_of_app. right. left.
    + rewrite lookup_insert_ne in Hg by done. apply was_reset_snoc. auto.
  - rewrite lookup_insert_ne; [done|]. intros ->. by rewrite Hnull in Hf.
  - rewrite map_size_insert_Some; [done|]. by rewrite Hf.
  - intros i g Hi Hg. apply was_acquired_snoc. eauto.
Qed.

Lemma consistent_submit w q wait signal f i out :
  consistent w ->
  fences (dev w) !! f = Some false -> f ∉ (pending (dev w)).*1 ->
  i ∉ (pending (dev w)).*2 -> images_in_flight_ (mem w) !! i = Some f ->
  consistent (returned w (vkQueueSubmit q wait i signal f) VK_SUCCESS out
                (set_pending (pending (dev w) ++ [(f, i)]) (dev w))).
Proof.
  intros [Hnf Hni Hown Hcnt Hres Hnull Hsize Hacq] Hf Hnotf Hnoti Himg.
  split; simpl; try done.
  - rewrite fmap_app. apply NoDup_app. split; [done|]. split.
    + intros x Hx Hx'. apply list_elem_of_singleton in Hx'. simpl in Hx'. by subst.
    + apply NoDup_singleton.
  - rewrite fmap_app. apply NoDup_app. split; [done|]. split.
    + intros x Hx Hx'. apply list_elem_of_singleton in Hx'. simpl in Hx'. by subst.
    + apply NoDup_singleton.
  - intros f' i' Hin. apply elem_of_app in Hin as [Hin|Hin]; [auto|].
    apply list_elem_of_singleton in Hin. by injection Hin as -> ->.
  - rewrite submitted_snoc, completed_snoc. simpl. rewrite length_app. simpl. lia.
  - intros g Hg. apply was_reset_snoc. auto.
  - intros i' g Hi Hg. apply was_acquired_snoc. eauto.
Qed.

Lemma consistent_create_fence w h out :
  consistent w -> size (fences (dev w)) < MAX_FRAMES_IN_FLIGHT ->
  h <> VK_NULL_HANDLE -> fences (dev w) !! h = None ->
  consistent (returned w (vkCreateFence VK_FENCE_CREATE_SIGNALED_BIT) VK_SUCCESS out
                (set_fences (<[h := N.testbit VK_FENCE_CREATE_SIGNALED_BIT 0]> (fences (dev w)))
                            (dev w))).
Proof.
  intros [Hnf Hni Hown Hcnt Hres Hnull Hsize Hacq] Hlt Hh Hfresh.
  split; simpl; try done.
  - intros f i Hin. destruct (Hown _ _ Hin) as [H1 H2]. split; [|done].
    rewrite lookup_insert_ne; [done|]. intros ->. by rewrite Hfresh in H1.
  - rewrite submitted_snoc, completed_snoc. simpl. lia.
  - intros g Hg. destruct (decide (h = g)) as [->|Hne].
    + by rewrite lookup_insert_eq in Hg.
    + rewrite lookup_insert_ne in Hg by done. apply was_reset_snoc. auto.
  - by rewrite lookup_insert_ne.
  - rewrite map_size_insert_None by done. lia.
  - intros i g Hi Hg. apply was_acquired_snoc. eauto.
Qed.

(** A write that leaves [images_in_flight_] alone. *)
Lemma consistent_store_other w m' :
  consistent w -> images_in_flight_ m' = images_in_flight_ (mem w) ->
  consistent (set_mem m' w) /\ hand_over w m'.
Proof.
  intros [Hnf Hni Hown Hcnt Hres Hnull Hsize Hacq] Heq. split.
  - split; simpl; try done.
    + intros f i Hin. rewrite Heq. auto.
    + intros i g. rewrite Heq. eauto.
  - intros i g f Hg Hf Hne. rewrite Heq in Hf. congruence.
Qed.

(** The write [images_in_flight_[i] = f], made when the fence found there
    is none or signaled and [i] came from an acquisition. *)
Lemma consistent_store_image w i f g :
  consistent w ->
  images_in_flight_ (mem w) !! i = Some g ->
  g = VK_NULL_HANDLE \/ fences (dev w) !! g = Some true ->
  was_acquired (history w) i ->
  let m' := set_images_in_flight_ (<[i := f]> (images_in_flight_ (mem w))) (mem w) in
  consistent (set_mem m' w) /\ hand_over w m' /\ i ∉ (pending (dev w)).*2.
Proof.
  intros Hc Hg Hfree Hacq' m'.
  assert (Hnot : i ∉ (pending (dev w)).*2).
  { intros Hin. destruct (pending_image_owner _ _ Hc Hin) as (f' & Hf' & Hu).
    rewrite Hg in Hf'. injection Hf' as <-. destruct Hfree as [->|Hs].
    - by rewrite (null_not_fence _ Hc) in Hu.
    - by rewrite Hs in Hu. }
  pose proof Hc as [Hnf Hni Hown Hcnt Hres Hnull Hsize Hacq].
  split; [|split; [|done]].
  - split; simpl; try done.
    + intros f' i' Hin. destruct (Hown _ _ Hin) as [H1 H2]. split; [done|].
      rewrite list_lookup_insert_ne; [done|]. intros ->. apply Hnot.
      by apply (list_elem_of_fmap_2 snd) in Hin.
    + intros i' g' Hi Hg'. destruct (decide (i = i')) as [<-|Hne]; [done|].
      rewrite list_lookup_insert_ne in Hi by done. eauto.
  - intros j g' f' Hj Hj' Hne. simpl in Hj'.
    destruct (decide (i = j)) as [<-|Hij].
    + rewrite Hg in Hj. by injection Hj as <-.
    + rewrite list_lookup_insert_ne in Hj' by done. congruence.
Qed.

Lemma evolves_not_pending_fence w w' f :
  rtc gpu_step w w' -> f ∉ (pending (dev w)).*1 -> f ∉ (pending (dev w')).*1.
Proof.
  intros Hev Hnot Hin. apply Hnot.
  apply list_elem_of_fmap in Hin as (x & -> & Hx).
  apply list_elem_of_fmap_2. by eapply evolves_pending.
Qed.

Lemma evolves_not_pending_image w w' i :
  rtc gpu_step w w' -> i ∉ (pending (dev w)).*2 -> i ∉ (pending (dev w')).*2.
Proof.
  intros Hev Hnot Hin. apply Hnot.
  apply list_elem_of_fmap in Hin as (x & -> & Hx).
  apply list_elem_of_fmap_2. by eapply evolves_pending.
Qed.

Lemma evolves_was_acquired w w' i :
  rtc gpu_step w w' -> was_acquired (history w) i -> was_acquired (history w') i.
Proof.
  intros Hev (sem & r & Hin). exists sem, r. by eapply evolves_history.
Qed.

Lemma signaled_not_pending w f :
  consistent w -> fences (dev w) !! f = Some true -> f ∉ (pending (dev w)).*1.
Proof.
  intros Hc Hf Hin. by rewrite (pending_unsignaled _ _ Hc Hin) in Hf.
Qed.

Lemma submit_failed_not_counted q wait cb signal f r out :
  r <> VK_SUCCESS -> is_submit (EvCall (vkQueueSubmit q wait cb signal f) r out) = false.
Proof. by destruct r. Qed.

(** Every frame keeps the invariant and leaves the slots ready. *)
Lemma draw_frame_safe w : ready w -> safe ready draw_frame w.
Proof.
  intros Hready. unfold draw_frame. cbn. unfold at_.
  destruct (in_flight_fences_ (mem w) !! current_frame_ (mem w)) as [fence|] eqn:Hfence; [|done].
  cbn. intros w1 Hev1 Hc1 r1 out1 d1 Hapi1. inversion Hapi1; subst. clear Hapi1.
  split; [by apply consistent_returned|].
  destruct (image_avaiable_semaphores_ (mem w) !! current_frame_ (mem w))
    as [image_avaiable|]; [|done].
  cbn. intros w2 Hev2 Hc2 r2 image_index d2 Hapi2.
  assert (Hd2 : d2 = dev w2) by (inversion Hapi2; by subst). subst d2. clear Hapi2.
  split; [by apply consistent_returned|].
  set (w3 := returned w2 (vkAcquireNextImageKHR image_avaiable) r2 image_index (dev w2)).
  assert (Hmem3 : mem w3 = mem w).
  { simpl. rewrite (evolves_mem _ _ Hev2). simpl. by apply evolves_mem. }
  assert (Hsig3 : fences (dev w3) !! fence = Some true).
  { simpl. by apply (evolves_signaled _ _ _ Hev2). }
  assert (Hacq3 : was_acquired (history w3) image_index).
  { exists image_avaiable, r2. apply elem_of_app. right. left. }
  assert (Hk3 : keeps w w3).
  { eapply keeps_trans; [by apply keeps_evolves|].
    eapply keeps_trans; [by apply (keeps_returned w1 (vkWaitForFences fence) VK_SUCCESS out1), api_wait_for_fences|].
    eapply keeps_trans; [by apply keeps_evolves|]. by split. }
  clearbody w3. clear dependent w1. clear dependent w2.
  destruct (images_in_flight_ (mem w) !! image_index) as [image_fence|] eqn:Himg; [|done].
  cbn -[when].
  match goal with |- safe _ (when _ _ ≫= ?k) _ => set (rest := k) end.
  assert (Hrest : forall w', mem w' = mem w -> keeps w w' ->
            fences (dev w') !! fence = Some true ->
            image_fence = VK_NULL_HANDLE \/ fences (dev w') !! image_fence = Some true ->
            was_acquired (history w') image_index ->
            safe ready (rest tt) w').
  { clear dependent w3. intros w' Hmem Hk' Hsig Hfree Hacq. subst rest. cbn.
    rewrite Hmem. intros w4 Hev4 Hc4.
    assert (Hk4 : keeps w w4) by (eapply keeps_trans; [done|by apply keeps_evolves]).
    assert (Hmem4 : mem w4 = mem w) by (rewrite (evolves_mem _ _ Hev4); done).
    assert (Himg4 : images_in_flight_ (mem w4) !! image_index = Some image_fence)
      by (by rewrite Hmem4).
    assert (Hfree4 : image_fence = VK_NULL_HANDLE \/
                     fences (dev w4) !! image_fence = Some true).
    { destruct Hfree as [?|Hs]; [by left|right]. by apply (evolves_signaled _ _ _ Hev4). }
    pose proof (evolves_was_acquired _ _ _ Hev4 Hacq) as Hacq4.
    pose proof (evolves_signaled _ _ _ Hev4 Hsig) as Hsig4.
    destruct (consistent_store_image w4 image_index fence image_fence Hc4 Himg4 Hfree4 Hacq4)
      as (Hc5 & Hho & Hni4).
    rewrite Hmem4 in Hc5, Hho.
    split; [done|]. split; [done|].
    set (m' := set_images_in_flight_ (<[image_index:=fence]> (images_in_flight_ (mem w))) (mem w)) in *.
    destruct (render_finished_semaphores_ (mem w) !! current_frame_ (mem w))
      as [render_finished|]; [|done].
    cbn. intros w6 Hev6 Hc6 r6 out6 d6 Hapi6. inversion Hapi6; subst. clear Hapi6.
    pose proof (evolves_signaled _ _ _ Hev6 Hsig4) as Hsig6.
    assert (Hmem6 : mem w6 = m') by (by rewrite (evolves_mem _ _ Hev6)).
    assert (Hk6 : keeps w w6).
    { eapply keeps_trans; [exact Hk4|]. eapply keeps_trans; [|by apply keeps_evolves].
      by destruct Hk4 as (? & ? & ?). }
    split; [by apply consistent_reset|].
    set (w7 := returned w6 (vkResetFences fence) VK_SUCCESS out6
                 (set_fences (<[fence:=false]> (fences (dev w6))) (dev w6))).
    assert (Hf7 : fences (dev w7) !! fence = Some false) by apply lookup_insert_eq.
    assert (Hnf7 : fence ∉ (pending (dev w7)).*1)
      by exact (signaled_not_pending w6 fence Hc6 Hsig6).
    assert (Hni7 : image_index ∉ (pending (dev w7)).*2)
      by exact (evolves_not_pending_image _ _ _ Hev6 Hni4).
    assert (Him7 : images_in_flight_ (mem w7) !! image_index = Some fence).
    { simpl. rewrite Hmem6. simpl. apply list_lookup_insert_eq.
      by apply lookup_lt_Some in Himg. }
    assert (Hk7 : keeps w w7).
    { eapply keeps_trans; [exact Hk6|].
      by eapply (keeps_returned w6 (vkResetFences fence) VK_SUCCESS out6), api_reset_fences. }
    clearbody w7. clear dependent w6. clear dependent w4.
    intros w8 Hev8 Hc8 r8 out8 d8 Hapi8.
    pose proof (evolves_unsignaled _ _ _ Hev8 Hf7 Hnf7) as Hf8.
    pose proof (evolves_not_pending_fence _ _ _ Hev8 Hnf7) as Hnf8.
    pose proof (evolves_not_pending_image _ _ _ Hev8 Hni7) as Hni8.
    assert (Him8 : images_in_flight_ (mem w8) !! image_index = Some fence)
      by (by rewrite (evolves_mem _ _ Hev8)).
    assert (Hk8 : keeps w w8) by (eapply keeps_trans; [done|by apply keeps_evolves]).
    pose proof (keeps_returned _ _ _ _ _ Hapi8) as Hk9.
    inversion Hapi8; subst; clear Hapi8.
    - split; [by apply consistent_submit|].
      cbn. intros w9 Hev9 Hc9 r9 out9 d9 Hapi9.
      pose proof (keeps_returned _ _ _ _ _ Hapi9) as Hk10.
      inversion Hapi9; subst. clear Hapi9.
      split; [by apply consistent_returned|].
      intros w10 Hev10 Hc10 r10 out10 d10 Hapi10.
      pose proof (keeps_returned _ _ _ _ _ Hapi10) as Hk11.
      inversion Hapi10; subst. clear Hapi10.
      split; [by apply consistent_returned|].
      intros w11 Hev11 Hc11.
      assert (Hk : keeps w w11).
      { eapply keeps_trans; [exact Hk8|]. eapply keeps_trans; [exact Hk9|].
        eapply keeps_trans; [by apply keeps_evolves|]. eapply keeps_trans; [exact Hk10|].
        eapply keeps_trans; [by apply keeps_evolves|]. eapply keeps_trans; [exact Hk11|].
        by apply keeps_evolves. }
      match goal with |- hand_over _ ?m'' /\ _ =>
        destruct (consistent_store_other w11 m'' Hc11) as [Hc12 Hho12];
          [by rewrite (evolves_mem _ _ Hev11)|] end.
      split; [done|]. split; [done|].
      intros w12 Hev12 Hc12'. destruct Hready as [Hcur Hslots].
      destruct Hk as (Hkf & Hkv & Hkc). pose proof (keeps_evolves _ _ Hev12) as (Hkf' & Hkv' & Hkc').
      split.
      + rewrite Hkc'. simpl. by apply Nat.mod_upper_bound.
      + intros slot Hslot. destruct (Hslots slot Hslot) as (f & Hf & Hs).
        exists f. rewrite Hkv'. simpl.
        pose proof (evolves_mem _ _ Hev11) as E. simpl in E. rewrite <- E, Hkv.
        split; [done|]. apply Hkf'. simpl. by apply Hkf.
    - split; [by apply consistent_returned, submit_failed_not_counted|].
      rewrite bool_decide_eq_true_2 by done. done. }
  unfold when. destruct (decide (image_fence = VK_NULL_HANDLE)) as [Hnull|Hnn].
  - rewrite bool_decide_eq_false_2 by (intros H; by apply H).
    apply (Hrest w3); auto.
  - rewrite bool_decide_eq_true_2 by done.
    cbn. intros w4 Hev4 Hc4 r4 out4 d4 Hapi4. inversion Hapi4; subst. clear Hapi4.
    split; [by apply consistent_returned|].
    apply (Hrest (returned w4 (vkWaitForFences image_fence) VK_SUCCESS out4 (dev w4))).
    + simpl. by rewrite (evolves_mem _ _ Hev4).
    + eapply keeps_trans; [exact Hk3|]. eapply keeps_trans; [by apply keeps_evolves|]. by split.
    + simpl. by apply (evolves_signaled _ _ _ Hev4).
    + by right.
    + apply was_acquired_snoc. by apply (evolves_was_acquired _ _ _ Hev4).
Qed.

(** *** [create_sync_objects] *)

Lemma still_evolves w w1 w2 : still w w1 -> rtc gpu_step w1 w2 -> still w w2.
Proof.
  intros (Hp & Hf & Hv & Hc) Hev. split; [by eapply evolves_no_pending|].
  split; [by rewrite (evolves_fences_idle _ _ Hev)|].
  by rewrite (evolves_mem _ _ Hev).
Qed.

Lemma still_store w w1 m' :
  still w w1 -> in_flight_fences_ m' = in_flight_fences_ (mem w1) ->
  current_frame_ m' = current_frame_ (mem w1) -> still w (set_mem m' w1).
Proof.
  intros (Hp & Hf & Hv & Hc) Hv' Hc'. repeat split; simpl; congruence.
Qed.

(** A call that leaves the device as it is and is no submission. *)
Lemma safe_call_quiet Q c k w :
  (forall d r out d', api d c r out d' -> d' = d) ->
  (forall r out, is_submit (EvCall c r out) = false) ->
  (forall w1 r out, rtc gpu_step w w1 -> consistent w1 ->
     safe Q (k r out) (returned w1 c r out (dev w1))) ->
  safe Q (Call c k) w.
Proof.
  intros Hsame Hns Hk w1 Hev Hc r out d' Hapi.
  rewrite (Hsame _ _ _ _ Hapi). split; [by apply consistent_returned | by apply Hk].
Qed.

(** A write that leaves [images_in_flight_] alone. *)
Lemma safe_store_other Q m' k w :
  images_in_flight_ m' = images_in_flight_ (mem w) ->
  (forall w1, rtc gpu_step w w1 -> consistent w1 -> safe Q k (set_mem m' w1)) ->
  safe Q (Store m' k) w.
Proof.
  intros Himg Hk w1 Hev Hc.
  destruct (consistent_store_other w1 m' Hc) as [Hc' Hho].
  { by rewrite (evolves_mem _ _ Hev). }
  split; [done|]. split; [done|]. by apply Hk.
Qed.

Lemma create_semaphore_same d r out d' : api d vkCreateSemaphore r out d' -> d' = d.
Proof. by inversion 1. Qed.

Lemma create_fence_inv d flags r out d' :
  api d (vkCreateFence flags) r out d' ->
  (r = VK_SUCCESS /\ out <> VK_NULL_HANDLE /\ fences d !! out = None /\
   d' = set_fences (<[out := N.testbit flags 0]> (fences d)) d) \/
  (r <> VK_SUCCESS /\ d' = d).
Proof. inversion 1; subst; auto. Qed.

Lemma safe_read Q k w : safe Q (k (mem w)) w -> safe Q (Read k) w.
Proof. done. Qed.

Lemma create_sync_objects_from_safe n : forall i w,
  i + n = MAX_FRAMES_IN_FLIGHT ->
  pending (dev w) = [] ->
  size (fences (dev w)) = i ->
  length (in_flight_fences_ (mem w)) = MAX_FRAMES_IN_FLIGHT ->
  current_frame_ (mem w) < MAX_FRAMES_IN_FLIGHT ->
  (forall slot, slot < i ->
     exists f, in_flight_fences_ (mem w) !! slot = Some f /\ is_Some (fences (dev w) !! f)) ->
  safe ready (create_sync_objects_from n i) w.
Proof.
  induction n as [|n IH]; intros i w Hin Hp Hsize Hlen Hcur Hslots.
  - simpl. intros w1 Hev _. apply (ready_keeps w); [|by apply keeps_evolves].
    split; [done|]. intros slot Hslot. apply Hslots. lia.
  - assert (Hstill : still w w) by done.
    cbn -[safe]. apply safe_call_quiet; [apply create_semaphore_same | done |].
    intros w1 r1 sem1 Hev1 Hc1.
    assert (Hs1 : still w (returned w1 vkCreateSemaphore r1 sem1 (dev w1)))
      by exact (still_evolves _ _ _ Hstill Hev1).
    cbn -[safe]. apply safe_read, safe_store_other; [done|]. intros w2 Hev2 Hc2.
    pose proof (still_evolves _ _ _ Hs1 Hev2) as Hs2.
    pose proof (evolves_mem _ _ Hev2) as Hm2. simpl in Hm2.
    destruct (bool_decide (r1 <> VK_SUCCESS)); [done|].
    cbn -[safe]. apply safe_call_quiet; [apply create_semaphore_same | done |].
    intros w3 r2 sem2 Hev3 Hc3.
    assert (Hs3 : still w w3).
    { eapply still_evolves; [|exact Hev3]. apply still_store; [done| |]; simpl; by rewrite Hm2. }
    cbn -[safe]. apply safe_read, safe_store_other; [done|]. intros w4 Hev4 Hc4.
    pose proof (evolves_mem _ _ Hev4) as Hm4. simpl in Hm4.
    assert (Hs4 : still w w4)
      by exact (still_evolves w (returned w3 vkCreateSemaphore r2 sem2 (dev w3)) w4 Hs3 Hev4).
    destruct (bool_decide (r2 <> VK_SUCCESS)); [done|].
    cbn -[safe]. intros w5 Hev5 Hc5 r3 fence d5 Hapi5.
    assert (Hs5 : still w w5).
    { eapply still_evolves; [|exact Hev5]. apply still_store; [done| |]; simpl; by rewrite Hm4. }
    destruct Hs5 as (Hp5 & Hf5 & Hv5 & Hc5').
    apply create_fence_inv in Hapi5 as [(-> & Hnn & Hfresh & ->)|(Hfail & ->)].
    + split.
      { apply consistent_create_fence; try done. rewrite Hf5. lia. }
      cbn -[safe]. apply safe_read, safe_store_other; [done|]. intros w6 Hev6 Hc6.
      cbn -[safe]. apply IH.
      * lia.
      * simpl. by apply (evolves_no_pending _ _ Hev6).
      * simpl. rewrite (evolves_fences_idle _ _ Hev6) by done. simpl.
        rewrite map_size_insert_None by done. by rewrite Hf5, Hsize.
      * simpl. rewrite length_insert. by rewrite Hv5.
      * simpl. by rewrite Hc5'.
      * intros slot Hslot. simpl.
        rewrite (evolves_fences_idle _ _ Hev6) by done. simpl. rewrite Hv5, Hf5.
        destruct (decide (slot = i)) as [->|Hne].
        -- exists fence. rewrite list_lookup_insert_eq by lia.
           split; [done|]. by rewrite lookup_insert_eq.
        -- destruct (Hslots slot) as (f & Hf & Hs); [lia|].
           exists f. rewrite list_lookup_insert_ne by done. split; [done|].
           destruct (decide (fence = f)) as [->|Hnf].
           ++ by rewrite lookup_insert_eq.
           ++ by rewrite lookup_insert_ne.
    + split; [by apply consistent_returned|].
      cbn -[safe]. apply safe_read, safe_store_other; [done|]. intros w6 Hev6 Hc6.
      by rewrite bool_decide_eq_true_2.
Qed.

(** The first write to [images_in_flight_], while nothing is pending. *)
Lemma consistent_store_fresh w m' :
  consistent w -> pending (dev w) = [] -> images_in_flight_ (mem w) = [] ->
  (forall i g, images_in_flight_ m' !! i = Some g -> g = VK_NULL_HANDLE) ->
  consistent (set_mem m' w) /\ hand_over w m'.
Proof.
  intros [Hnf Hni Hown Hcnt Hres Hnull Hsize Hacq] Hp Himg Hall. split.
  - split; simpl; try done.
    + intros f i Hin. rewrite Hp in Hin. by apply elem_of_nil in Hin.
    + intros i g Hi Hg. by apply Hall in Hi.
  - intros i g f Hi. by rewrite Himg in Hi.
Qed.

Lemma create_sync_objects_safe w :
  pending (dev w) = [] -> fences (dev w) = ∅ ->
  images_in_flight_ (mem w) = [] -> current_frame_ (mem w) < MAX_FRAMES_IN_FLIGHT ->
  safe ready create_sync_objects w.
Proof.
  intros Hp Hf Himg Hcur.
  unfold create_sync_objects. cbn -[safe create_sync_objects_from].
  apply safe_read, safe_store_other; [done|]. intros w1 Hev1 Hc1.
  pose proof (evolves_no_pending _ _ Hev1 Hp) as Hp1.
  pose proof (evolves_fences_idle _ _ Hev1 Hp) as Hf1.
  cbn -[safe create_sync_objects_from]. apply safe_read, safe_store_other; [done|]. intros w2 Hev2 Hc2.
  pose proof (evolves_no_pending _ _ Hev2 Hp1) as Hp2.
  pose proof (evolves_fences_idle _ _ Hev2 Hp1) as Hf2. simpl in Hf2.
  cbn -[safe create_sync_objects_from]. apply safe_read, safe_store_other; [done|]. intros w3 Hev3 Hc3.
  pose proof (evolves_no_pending _ _ Hev3 Hp2) as Hp3.
  pose proof (evolves_fences_idle _ _ Hev3 Hp2) as Hf3. simpl in Hf3.
  cbn -[safe create_sync_objects_from]. apply safe_read. cbn -[safe create_sync_objects_from].
  intros w4 Hev4 Hc4.
  pose proof (evolves_no_pending _ _ Hev4 Hp3) as Hp4.
  pose proof (evolves_fences_idle _ _ Hev4 Hp3) as Hf4. simpl in Hf4.
  pose proof (evolves_mem _ _ Hev4) as Hm4. simpl in Hm4.
  match goal with |- hand_over _ ?m' /\ _ =>
    destruct (consistent_store_fresh w4 m' Hc4 Hp4) as [Hc5 Hho5] end.
  { by rewrite Hm4. }
  { simpl. rewrite Himg, resize_nil. intros i g Hi.
    by apply lookup_replicate_1 in Hi as [-> _]. }
  split; [done|]. split; [done|].
  apply create_sync_objects_from_safe; simpl.
  - done.
  - done.
  - rewrite Hf4, Hf3, Hf2, Hf1, Hf. apply map_size_empty.
  - apply length_resize.
  - done.
  - intros slot Hslot. lia.
Qed.

(** *** The invariant holds in every reachable configuration *)

Lemma main_loop_exit_safe w : safe (after InExit) main_loop_exit w.
Proof.
  unfold main_loop_exit. cbn -[safe]. apply safe_call_quiet; [|done|done].
  intros d r out d' Hapi. by inversion Hapi.
Qed.

Lemma invariant_initial n : invariant (initial n).
Proof.
  split; simpl.
  - split; simpl; try done.
    + constructor.
    + constructor.
    + intros f i Hin. by apply elem_of_nil in Hin.
    + rewrite map_size_empty. unfold MAX_FRAMES_IN_FLIGHT. lia.
  - apply create_sync_objects_safe; simpl; try done. unfold MAX_FRAMES_IN_FLIGHT. lia.
Qed.

Lemma invariant_cpu_step c c' : invariant c -> cpu_step c c' -> invariant c'.
Proof.
  intros [Hc Hs] Hstep. destruct Hstep; simpl in *.
  - destruct (Hs _ (rtc_refl _ _) Hc r out d') as [Hc' Hs']; [done|]. by split.
  - by split.
  - destruct (Hs _ (rtc_refl _ _) Hc) as (_ & Hc' & Hs'). by split.
  - split; [done|]. destruct ph; simpl; try done; by apply Hs.
  - by split.
  - split; [done|]. by apply draw_frame_safe.
  - split; [done|]. apply main_loop_exit_safe.
Qed.

Lemma invariant_step c c' : invariant c -> step c c' -> invariant c'.
Proof.
  intros Hinv Hstep. destruct Hstep as [c c' Hcpu|w w' ctl0 Hgpu].
  - by eapply invariant_cpu_step.
  - destruct Hinv as [Hc Hs]. simpl in *. split.
    + by eapply gpu_step_consistent.
    + destruct ctl0 as [ph p| | |]; try done.
      * eapply safe_evolves; [|done]. by apply rtc_once.
      * simpl. eapply ready_keeps; [done|]. by apply keeps_gpu_step.
Qed.

Lemma reachable_invariant n c : reachable n c -> invariant c.
Proof.
  unfold reachable. intros Hr.
  assert (Hgen : forall a b, rtc step a b -> invariant a -> invariant b).
  { induction 1; eauto using invariant_step. }
  eapply Hgen; [done|]. apply invariant_initial.
Qed.

(** Pending batches hold distinct existing fences: there are no more of
    them than fences. *)
Lemma pending_bounded w :
  consistent w -> length (pending (dev w)) <= size (fences (dev w)).
Proof.
  intros Hc. rewrite <- (length_fmap fst).
  rewrite <- (size_list_to_set (C := gset nat)) by apply (pending_fences_distinct _ Hc).
  rewrite <- size_dom. apply subseteq_size.
  intros f Hf. apply elem_of_list_to_set in Hf. apply elem_of_dom.
  by rewrite (pending_unsignaled _ _ Hc Hf).
Qed.

(** *** The executable reading is sound *)

Lemma api_fun_sound d c r out d' : api_fun d c r out = Some d' -> api d c r out d'.
Proof.
  destruct c; simpl; intros H; repeat case_decide; simplify_eq;
    try (by constructor).
  - destruct (fences d !! out) eqn:E; simplify_eq. by constructor.
  - destruct (fences d !! fence) as [[|]|] eqn:E; simplify_eq. by constructor.
  - apply api_acquire_fail; intros ->; auto.
  - destruct (fences d !! fence) as [b|] eqn:E; simplify_eq. by eapply api_reset_fences.
  - destruct (pending d) eqn:E; simplify_eq. by constructor.
Qed.

Lemma advance_sound ph h d : forall p m,
  rtc step {| now := {| history := h; dev := d; mem := m |}; ctl := Run ph p |}
           {| now := {| history := h; dev := d; mem := (advance p m).1 |};
              ctl := Run ph (advance p m).2 |}.
Proof.
  induction p as [a|what| |k IH|m' k IH|c k IH]; intros m; simpl; try done.
  - eapply rtc_l; [|apply IH]. apply step_cpu.
    apply (cpu_read ph {| history := h; dev := d; mem := m |}).
  - eapply rtc_l; [|apply IH]. apply step_cpu. apply cpu_store.
Qed.

Lemma settle_sound c : rtc step c (settle c).
Proof.
  destruct c as [[h d m] [ph p| | |]]; unfold settle; simpl; try done.
  pose proof (advance_sound ph h d p m) as Hadv.
  destruct (advance p m) as [m' p'] eqn:E. simpl in *.
  destruct p' as [[]|what| |k|m'' k|c k]; try done.
  - eapply rtc_r; [done|]. apply step_cpu.
    apply (cpu_return ph {| history := h; dev := d; mem := m' |}).
  - eapply rtc_r; [done|]. apply step_cpu.
    apply (cpu_throw ph {| history := h; dev := d; mem := m' |}).
Qed.

Lemma move1_sound mv c c' : move1 mv c = Some c' -> step c c'.
Proof.
  destruct c as [[h d m] ctl0]. destruct mv as [r out|k| |]; simpl.
  - destruct ctl0 as [ph [a|what| |k|m' k|c k]| | |]; try done.
    destruct (api_fun d c r out) as [d'|] eqn:E; [|done].
    intros [= <-]. apply step_cpu. apply cpu_call. by apply api_fun_sound.
  - destruct (pending d !! k) as [[f i]|] eqn:E; [|done].
    intros [= <-]. apply step_gpu. rewrite delete_take_drop.
    apply gpu_complete. by rewrite take_drop_middle.
  - destruct ctl0; try done. intros [= <-]. apply step_cpu.
    apply (cpu_frame {| history := h; dev := d; mem := m |}).
  - destruct ctl0; try done. intros [= <-]. apply step_cpu.
    apply (cpu_close {| history := h; dev := d; mem := m |}).
Qed.

Lemma drive_sound script : forall c c', drive script c = Some c' -> rtc step c c'.
Proof.
  induction script as [|mv script IH]; intros c c'; simpl.
  - intros [= <-]. apply settle_sound.
  - destruct (move1 mv (settle c)) as [c1|] eqn:E; [|done].
    intros Hd. etrans; [apply settle_sound|].
    eapply rtc_l; [by apply (move1_sound mv)|]. by apply IH.
Qed.

Lemma driven_reachable n script : reachable n (driven n script).
Proof.
  unfold driven, reachable. destruct (drive script (initial n)) as [c|] eqn:E; simpl.
  - by apply (drive_sound script).
  - done.
Qed.

(** *** Scenarios *)

Example init_leaves_slots_ready :
  mem (now (driven 3 init_script)) = slots_ready /\
  ctl (driven 3 init_script) = Loop /\
  map_to_list (fences (dev (now (driven 3 init_script)))) = [(2, true); (1, true)].
Proof. repeat split; vm_compute; reflexivity. Qed.

(** Two frames submitted and none completed: both slots are in flight. *)
Example two_frames_in_flight :
  let c := driven 3 (init_script ++ frame_script 0 ++ frame_script 1) in
  pending (dev (now c)) = [(1, 0); (2, 1)] /\
  size (unsignaled (dev (now c))) = 2 /\
  submitted (history (now c)) = 2 /\ completed (history (now c)) = 0 /\
  images_in_flight_ (mem (now c)) = [1; 2; 0] /\
  ctl c = Loop.
Proof. repeat split; vm_compute; reflexivity. Qed.

(** The third frame cannot get past its first wait until the GPU completes
    the batch of slot 0; after that completion it can. *)
Example third_frame_waits :
  drive (init_script ++ frame_script 0 ++ frame_script 1 ++ [Frame; Reply VK_SUCCESS 0])
        (initial 3) = None /\
  is_Some (drive (init_script ++ frame_script 0 ++ frame_script 1 ++
                  [Complete 0; Frame; Reply VK_SUCCESS 0]) (initial 3)).
Proof. split; vm_compute; [reflexivity | eexists; reflexivity]. Qed.

(** With a single swapchain image the second frame acquires the image the
    first one renders to: its wait on the recorded fence cannot return
    before the GPU completes that batch, and returns after it. *)
Example image_reuse_waits :
  drive (init_script ++ frame_script 0 ++
         [Frame; Reply VK_SUCCESS 0; Reply VK_SUCCESS 0; Reply VK_SUCCESS 0])
        (initial 1) = None /\
  (exists c, drive (init_script ++ frame_script 0 ++
                    [Frame; Reply VK_SUCCESS 0; Reply VK_SUCCESS 0; Complete 0;
                     Reply VK_SUCCESS 0; Reply VK_SUCCESS 0; Reply VK_SUCCESS 0])
                   (initial 1) = Some c /\
             pending (dev (now c)) = [(2, 0)] /\
             images_in_flight_ (mem (now c)) = [2]).
Proof. split; [vm_compute; reflexivity | eexists; vm_compute; repeat split]. Qed.

(** [draw_frame] checks the result of the submission. *)
Lemma draw_frame_submit_failure r :
  r <> VK_SUCCESS ->
  (run draw_frame slots_ready
       [(VK_SUCCESS, 0); (VK_SUCCESS, 0); (VK_SUCCESS, 0); (r, 0)]).2
  = Some (Thrown "Failed to submit draw command buffer!").
Proof. intros Hr. destruct r; [done|..]; reflexivity. Qed.

(** C6 (the code departs from it): the results of the acquisition and of the
    presentation are dropped. Whatever they are (out-of-date surface,
    device loss), [draw_frame] submits, presents, advances [current_frame_]
    and returns normally, and [main_loop] goes on to its next iteration
    instead of unwinding to [main]. *)
Theorem draw_frame_drops_acquire_and_present_results r_acquire r_present :
  run draw_frame slots_ready
      [(VK_SUCCESS, 0); (r_acquire, 0); (VK_SUCCESS, 0); (VK_SUCCESS, 0);
       (r_present, 0); (VK_SUCCESS, 0)]
  = ([vkWaitForFences 1; vkAcquireNextImageKHR 1; vkResetFences 1;
      vkQueueSubmit graphics_queue_ 1 0 2 1; vkQueuePresentKHR present_queue_ 2 0;
      vkQueueWaitIdle present_queue_],
     set_current_frame_ 1 (set_images_in_flight_ [1; 0; 0] slots_ready),
     Some (Returned tt)) /\
  ctl (driven 3 (init_script ++
                 [Frame; Reply VK_SUCCESS 0; Reply VK_ERROR_OUT_OF_DATE_KHR 0;
                  Reply VK_SUCCESS 0; Reply VK_SUCCESS 0;
                  Reply VK_ERROR_DEVICE_LOST 0; Reply VK_SUCCESS 0])) = Loop.
Proof. split; [reflexivity | vm_compute; reflexivity]. Qed.




(** C8: in every reachable configuration at most [MAX_FRAMES_IN_FLIGHT]
    fences are unsignaled, at most that many batches are pending, and the
    submissions are at most that many ahead of the completions. *)
Theorem frames_in_flight_bounded n c :
  reachable n c ->
  size (unsignaled (dev (now c))) <= MAX_FRAMES_IN_FLIGHT /\
  length (pending (dev (now c))) <= MAX_FRAMES_IN_FLIGHT /\
  submitted (history (now c)) <= completed (history (now c)) + MAX_FRAMES_IN_FLIGHT.
Proof.
  intros Hr. destruct (reachable_invariant _ _ Hr) as [Hc _].
  pose proof (pending_bounded _ Hc) as Hp.
  pose proof (fences_bounded _ Hc) as Hs.
  split; [|split].
  - etrans; [|exact Hs]. apply map_subseteq_size, map_filter_subseteq.
  - lia.
  - rewrite (pending_count _ Hc). lia.
Qed.

Lemma frames_in_flight_bounded_witness :
  let c := driven 3 (init_script ++ frame_script 0 ++ frame_script 1) in
  size (unsignaled (dev (now c))) <= MAX_FRAMES_IN_FLIGHT /\
  length (pending (dev (now c))) <= MAX_FRAMES_IN_FLIGHT /\
  submitted (history (now c)) <= completed (history (now c)) + MAX_FRAMES_IN_FLIGHT.
Proof.
  intros c. apply (frames_in_flight_bounded 3 c). apply driven_reachable.
Defined.

Lemma hand_over_same w m' :
  images_in_flight_ m' = images_in_flight_ (mem w) -> hand_over w m'.
Proof. intros Heq i g f Hg Hf Hne. rewrite Heq in Hf. congruence. Qed.

(** C9: in every reachable configuration no two pending batches (batches
    whose fences are unsignaled) render to the same image, each pending
    batch's image is recorded in [images_in_flight_] under that batch's
    fence, and whenever a step changes an entry of [images_in_flight_] the
    fence the entry held is none or already signaled. *)
Theorem image_owner_exclusive n c :
  reachable n c ->
  (forall f1 f2 i, (f1, i) ∈ pending (dev (now c)) -> (f2, i) ∈ pending (dev (now c)) ->
     f1 = f2) /\
  NoDup (pending (dev (now c))).*2 /\
  (forall f i, (f, i) ∈ pending (dev (now c)) ->
     fences (dev (now c)) !! f = Some false /\
     images_in_flight_ (mem (now c)) !! i = Some f) /\
  (forall c', step c c' -> hand_over (now c) (mem (now c'))).
Proof.
  intros Hr. destruct (reachable_invariant _ _ Hr) as [Hc Hs].
  split; [|split; [|split]].
  - intros f1 f2 i H1 H2.
    destruct (pending_owned _ Hc _ _ H1) as [_ E1].
    destruct (pending_owned _ Hc _ _ H2) as [_ E2]. congruence.
  - apply (pending_images_distinct _ Hc).
  - apply (pending_owned _ Hc).
  - intros c' Hstep. destruct Hstep as [c c' Hcpu|w w' ctl0 Hgpu].
    + destruct Hcpu; simpl in *; try (by apply hand_over_same).
      by destruct (Hs _ (rtc_refl _ _) Hc) as (Hho & _).
    + simpl. apply hand_over_same. by rewrite (gpu_step_mem _ _ Hgpu).
Qed.

Lemma image_owner_exclusive_witness :
  let c := driven 3 (init_script ++ frame_script 0 ++ frame_script 1) in
  NoDup (pending (dev (now c))).*2 /\
  (forall f i, (f, i) ∈ pending (dev (now c)) ->
     fences (dev (now c)) !! f = Some false /\
     images_in_flight_ (mem (now c)) !! i = Some f).
Proof.
  intros c.
  destruct (image_owner_exclusive 3 c (driven_reachable 3 _)) as (_ & H2 & H3 & _).
  split; [exact H2 | exact H3].
Defined.

End SyncFacts.

(** ** Further properties of the code *)

Import Selector Negotiator Setup Sync Conduct.

Section SelectorMore.
Local Open Scope Z_scope.

(** *** [find_queue_families] *)

Lemma find_queue_families_from_sound all : forall qs done i indices,
  all = done ++ qs -> i = Z.of_nat (length done) ->
  (forall g, graphics_family indices = Some g ->
     0 <= g /\ exists q, all !! Z.to_nat g = Some q /\ has_graphics q = true) ->
  (forall p, present_family indices = Some p ->
     0 <= p /\ exists q, all !! Z.to_nat p = Some q /\ present_support q = true) ->
  let result := find_queue_families_from qs i indices in
  (forall g, graphics_family result = Some g ->
     0 <= g /\ exists q, all !! Z.to_nat g = Some q /\ has_graphics q = true) /\
  (forall p, present_family result = Some p ->
     0 <= p /\ exists q, all !! Z.to_nat p = Some q /\ present_support q = true).
Proof.
  induction qs as [|q qs IH]; intros done i indices Hall Hi Hg Hp; simpl; [by split|].
  assert (Hq : all !! Z.to_nat i = Some q).
  { subst. rewrite Nat2Z.id. by rewrite lookup_app_r, Nat.sub_diag by lia. }
  set (indices1 := if bool_decide (Z.land (queueFlags q) VK_QUEUE_GRAPHICS_BIT <> 0)
                   then {| graphics_family := Some i; present_family := present_family indices |}
                   else indices).
  set (indices2 := if present_support q
                   then {| graphics_family := graphics_family indices1; present_family := Some i |}
                   else indices1).
  assert (Hg1 : forall g, graphics_family indices1 = Some g ->
            0 <= g /\ exists q, all !! Z.to_nat g = Some q /\ has_graphics q = true).
  { subst indices1. unfold has_graphics.
    destruct (bool_decide _) eqn:E; [|done]. simpl. intros g [= <-].
    split; [lia|]. eauto. }
  assert (Hp1 : forall p, present_family indices1 = Some p ->
            0 <= p /\ exists q, all !! Z.to_nat p = Some q /\ present_support q = true).
  { subst indices1. by destruct (bool_decide _). }
  assert (Hg2 : forall g, graphics_family indices2 = Some g ->
            0 <= g /\ exists q, all !! Z.to_nat g = Some q /\ has_graphics q = true).
  { subst indices2. by destruct (present_support q). }
  assert (Hp2 : forall p, present_family indices2 = Some p ->
            0 <= p /\ exists q, all !! Z.to_nat p = Some q /\ present_support q = true).
  { subst indices2. destruct (present_support q) eqn:E; [|done]. simpl. intros p [= <-].
    split; [lia|]. eauto. }
  destruct (is_complete indices2); [by split|].
  apply (IH (done ++ [q])); try done.
  - by rewrite <- app_assoc.
  - rewrite length_app. simpl. lia.
Qed.

(** X1: an index returned by [find_queue_families] designates a queue
    family of the device that has the property looked for: the graphics
    index a family with the graphics bit, the present index a family that
    can present to the surface. *)
Theorem find_queue_families_sound device :
  (forall g, graphics_family (find_queue_families device) = Some g ->
     0 <= g /\ exists q, queue_families device !! Z.to_nat g = Some q /\
                         has_graphics q = true) /\
  (forall p, present_family (find_queue_families device) = Some p ->
     0 <= p /\ exists q, queue_families device !! Z.to_nat p = Some q /\
                         present_support q = true).
Proof.
  apply (find_queue_families_from_sound (queue_families device) (queue_families device) []);
    simpl; done.
Qed.

Lemma is_complete_iff indices :
  is_complete indices = true <->
  is_Some (graphics_family indices) /\ is_Some (present_family indices).
Proof.
  unfold is_complete. rewrite andb_true_iff, !bool_decide_eq_true. done.
Qed.

Lemma find_queue_families_from_complete : forall qs i indices,
  is_complete (find_queue_families_from qs i indices) = true <->
  (is_Some (graphics_family indices) \/ Exists (fun q => has_graphics q = true) qs) /\
  (is_Some (present_family indices) \/ Exists (fun q => present_support q = true) qs).
Proof.
  induction qs as [|q qs IH]; intros i indices; simpl.
  - rewrite is_complete_iff, !Exists_nil. tauto.
  - set (indices1 := if bool_decide (Z.land (queueFlags q) VK_QUEUE_GRAPHICS_BIT <> 0)
                     then {| graphics_family := Some i; present_family := present_family indices |}
                     else indices).
    set (indices2 := if present_support q
                     then {| graphics_family := graphics_family indices1; present_family := Some i |}
                     else indices1).
    assert (HG : is_Some (graphics_family indices2) <->
                 is_Some (graphics_family indices) \/ has_graphics q = true).
    { subst indices2 indices1. unfold has_graphics.
      destruct (present_support q), (bool_decide _); simpl;
        split; intros H; eauto; destruct H as [H|H]; eauto; done. }
    assert (HP : is_Some (present_family indices2) <->
                 is_Some (present_family indices) \/ present_support q = true).
    { subst indices2 indices1.
      destruct (present_support q), (bool_decide _); simpl;
        split; intros H; eauto; destruct H as [H|H]; eauto; done. }
    rewrite !Exists_cons.
    destruct (is_complete indices2) eqn:Ec.
    + rewrite Ec. apply is_complete_iff in Ec. tauto.
    + rewrite IH. tauto.
Qed.

Lemma find_queue_families_is_complete device :
  is_complete (find_queue_families device) = true <->
  Exists (fun q => has_graphics q = true) (queue_families device) /\
  Exists (fun q => present_support q = true) (queue_families device).
Proof.
  unfold find_queue_families. rewrite find_queue_families_from_complete. simpl.
  split.
  - intros [[Hg|Hg] [Hp|Hp]]; try (by destruct Hg); try (by destruct Hp). done.
  - intros [Hg Hp]. split; by right.
Qed.

(** X2: [find_queue_families] returns a complete pair of indices exactly
    when the device has a queue family with the graphics bit and a queue
    family that can present to the surface. *)
Theorem find_queue_families_complete device :
  is_complete (find_queue_families device) = true <->
  Exists (fun q => has_graphics q = true) (queue_families device) /\
  Exists (fun q => present_support q = true) (queue_families device).
Proof. apply find_queue_families_is_complete. Qed.

(** *** [check_device_extension_support], [is_device_suitable] *)

Lemma erase_all (required : gset string) available :
  foldl (fun req extension => req ∖ {[ extension ]}) required available
  = required ∖ list_to_set available.
Proof.
  revert required. induction available as [|e l IH]; intros required; simpl.
  - set_solver.
  - rewrite IH. set_solver.
Qed.

Lemma extension_support_iff device :
  check_device_extension_support device = true <->
  forall extension, extension ∈ device_extensions ->
    extension ∈ available_extensions device.
Proof.
  unfold check_device_extension_support. rewrite bool_decide_eq_true, erase_all.
  split.
  - intros Hempty e He.
    destruct (decide (e ∈ available_extensions device)) as [|Hn]; [done|].
    assert (Hin : e ∈ (list_to_set device_extensions : gset string) ∖
                      list_to_set (available_extensions device)) by set_solver.
    rewrite Hempty in Hin. set_solver.
  - intros Hall. apply set_eq. intros e. split; [|set_solver].
    intros [He Hn]%elem_of_difference. apply elem_of_list_to_set in He.
    specialize (Hall e He). set_solver.
Qed.

(** X3: [check_device_extension_support] answers true exactly when every
    required device extension (here VK_KHR_swapchain) is among the names the
    device reports. *)
Theorem check_device_extension_support_iff device :
  check_device_extension_support device = true <->
  forall extension, extension ∈ device_extensions ->
    extension ∈ available_extensions device.
Proof. apply extension_support_iff. Qed.

Lemma suitable_iff device :
  is_device_suitable device = true <->
  Exists (fun q => has_graphics q = true) (queue_families device) /\
  Exists (fun q => present_support q = true) (queue_families device) /\
  (forall extension, extension ∈ device_extensions ->
     extension ∈ available_extensions device) /\
  formats device <> [] /\ present_modes device <> [].
Proof.
  unfold is_device_suitable.
  pose proof (find_queue_families_is_complete device) as Hq.
  pose proof (extension_support_iff device) as He.
  destruct (is_complete (find_queue_families device)),
    (check_device_extension_support device); simpl;
    rewrite ?andb_true_iff, ?negb_true_iff, ?bool_decide_eq_false;
    intuition (try done; try congruence).
Qed.

(** X4: [is_device_suitable] accepts a device exactly when it has a queue
    family with the graphics bit, a queue family that can present, every
    required extension, at least one surface format and at least one
    present mode. *)
Theorem is_device_suitable_iff device :
  is_device_suitable device = true <->
  Exists (fun q => has_graphics q = true) (queue_families device) /\
  Exists (fun q => present_support q = true) (queue_families device) /\
  (forall extension, extension ∈ device_extensions ->
     extension ∈ available_extensions device) /\
  formats device <> [] /\ present_modes device <> [].
Proof. apply suitable_iff. Qed.

(** *** [pick_physical_device] *)

Lemma positive_score_eligible device :
  0 < rate_device_suitability device -> eligible device = true.
Proof.
  intros Hpos. destruct (eligible device) eqn:E; [done|].
  apply ineligible_scores_zero in E. lia.
Qed.

(** X5: a device returned by [pick_physical_device] is one of the
    enumerated devices, passes both eligibility guards, has a positive
    score, and no enumerated device scores higher. *)
Theorem pick_physical_device_best devices d :
  pick_physical_device devices = Returned d ->
  d ∈ devices /\ eligible d = true /\ 0 < rate_device_suitability d /\
  forall d', d' ∈ devices -> rate_device_suitability d' <= rate_device_suitability d.
Proof.
  intros Hpick. destruct devices as [|d0 rest]; [done|].
  destruct (pick_physical_device_unfold (d0 :: rest)) as (b & Hb & Heq); [done|].
  rewrite Heq in Hpick. destruct (Z.ltb_spec 0 b.1) as [Hpos|]; [|done].
  injection Hpick as <-. pose proof Hb as [Hs _]. rewrite Hs in Hpos.
  split; [by apply (last_max_in _ _ Hb)|]. split; [by apply positive_score_eligible|].
  split; [done|]. intros d' Hd'. rewrite <- Hs. by apply (last_max_elem _ _ _ Hb).
Qed.

Lemma pick_physical_device_best_witness :
  eligible (gpu 2 VK_PHYSICAL_DEVICE_TYPE_INTEGRATED_GPU 16384) = true /\
  0 < rate_device_suitability (gpu 2 VK_PHYSICAL_DEVICE_TYPE_INTEGRATED_GPU 16384).
Proof.
  destruct (pick_physical_device_best
              [gpu 1 VK_PHYSICAL_DEVICE_TYPE_DISCRETE_GPU 4096;
               gpu 2 VK_PHYSICAL_DEVICE_TYPE_INTEGRATED_GPU 16384; headless 3]
              (gpu 2 VK_PHYSICAL_DEVICE_TYPE_INTEGRATED_GPU 16384))
    as (_ & He & Hp & _); [reflexivity|]. by split.
Defined.

(** X6: [pick_physical_device] never reads [rbegin()] of an empty
    container, and it returns a device exactly when some enumerated device
    has a positive score; otherwise it throws. *)
Theorem pick_physical_device_succeeds_iff devices :
  pick_physical_device devices <> UndefinedBehaviour /\
  ((exists d, pick_physical_device devices = Returned d) <->
   Exists (fun d => 0 < rate_device_suitability d) devices).
Proof.
  destruct devices as [|d0 rest].
  - split; [done|]. rewrite Exists_nil. split; [by intros [d Hd] | done].
  - destruct (pick_physical_device_unfold (d0 :: rest)) as (b & Hb & ->); [done|].
    destruct (Z.ltb_spec 0 b.1) as [Hpos|Hle]; (split; [done|]).
    + split; [|eauto]. intros _. apply Exists_exists. exists b.2.
      split; [by apply (last_max_in _ _ Hb)|]. destruct Hb as [<- _]. done.
    + split; [by intros [d Hd]|]. intros (d & Hd & Hp)%Exists_exists.
      pose proof (last_max_elem _ _ _ Hb Hd). lia.
Qed.

Lemma multimap_insert_perm kv m : multimap_insert kv m ≡ₚ kv :: m.
Proof.
  induction m as [|kv' rest IH]; simpl; [done|].
  destruct (kv.1 <? kv'.1); [done|]. rewrite IH. apply Permutation_swap.
Qed.

Lemma rate_from_perm m devices :
  foldl (fun candidates device =>
           multimap_insert (rate_device_suitability device, device) candidates) m devices
  ≡ₚ m ++ ((fun d => (rate_device_suitability d, d)) <$> devices).
Proof.
  revert m. induction devices as [|d rest IH]; intros m; simpl.
  - by rewrite app_nil_r.
  - rewrite IH, multimap_insert_perm. simpl. apply Permutation_middle.
Qed.

(** X7: after the scoring loop the [candidates] multimap holds every
    enumerated device exactly once, paired with its score, in
    non-decreasing order of score. *)
Theorem rate_all_sorted_permutation devices :
  rate_all devices ≡ₚ (fun d => (rate_device_suitability d, d)) <$> devices /\
  sorted (rate_all devices).
Proof.
  split.
  - unfold rate_all. by rewrite rate_from_perm.
  - exact (proj1 (rate_from_last [] devices I)).
Qed.

End SelectorMore.

Section SetupFacts.
Local Open Scope Z_scope.

Lemma layer_found_iff layer_name available_layers :
  layer_found layer_name available_layers = true <-> layer_name ∈ available_layers.
Proof.
  induction available_layers as [|l rest IH]; simpl.
  - split; [done|]. by intros H%elem_of_nil.
  - rewrite elem_of_cons. destruct (String.eqb_spec layer_name l) as [->|Hne].
    + split; auto.
    + rewrite IH. split; [auto|]. by intros [|].
Qed.

Lemma all_layers_found_iff layers available_layers :
  all_layers_found layers available_layers = true <->
  forall layer_name, layer_name ∈ layers -> layer_name ∈ available_layers.
Proof.
  induction layers as [|l rest IH]; simpl.
  - split; [|done]. intros _ x Hx. by apply elem_of_nil in Hx.
  - destruct (layer_found l available_layers) eqn:E; simpl.
    + apply layer_found_iff in E. rewrite IH. split.
      * intros H x [->|Hx]%elem_of_cons; auto.
      * intros H x Hx. apply H. by right.
    + split; [done|]. intros H. assert (Hl : l ∈ available_layers) by (apply H; left).
      apply layer_found_iff in Hl. congruence.
Qed.

(** X8: [check_validation_layer_support] answers true exactly when every
    requested validation layer (here VK_LAYER_KHRONOS_validation) is among
    the layers the loader reports. *)
Theorem check_validation_layer_support_iff available_layers :
  check_validation_layer_support available_layers = true <->
  forall layer_name, layer_name ∈ validation_layers -> layer_name ∈ available_layers.
Proof. apply all_layers_found_iff. Qed.

(** *** Surface format and present mode *)

Lemma first_preferred_format_Some l f :
  first_preferred_format l = Some f ->
  f ∈ l /\ f = (VK_FORMAT_B8G8R8A8_SRGB, VK_COLOR_SPACE_SRGB_NONLINEAR_KHR).
Proof.
  induction l as [|x l IH]; simpl; [done|].
  destruct (preferred_format x) eqn:E.
  - intros [= <-]. split; [left|]. unfold preferred_format in E.
    apply andb_true_iff in E as [E1%Z.eqb_eq E2%Z.eqb_eq]. destruct x; simpl in *. congruence.
  - intros H. destruct (IH H). split; [by right | done].
Qed.

Lemma first_preferred_format_None l :
  first_preferred_format l = None ->
  (VK_FORMAT_B8G8R8A8_SRGB, VK_COLOR_SPACE_SRGB_NONLINEAR_KHR) ∉ l.
Proof.
  induction l as [|x l IH]; simpl; [intros _; by intros H%elem_of_nil|].
  destruct (preferred_format x) eqn:E; [done|]. intros H [<-|Hin]%elem_of_cons.
  - by vm_compute in E.
  - by apply IH.
Qed.

Lemma surface_format_cases availableFormats :
  choose_swap_surface_format availableFormats =
    if decide ((VK_FORMAT_B8G8R8A8_SRGB, VK_COLOR_SPACE_SRGB_NONLINEAR_KHR) ∈ availableFormats)
    then Returned (VK_FORMAT_B8G8R8A8_SRGB, VK_COLOR_SPACE_SRGB_NONLINEAR_KHR)
    else match availableFormats with
         | [] => UndefinedBehaviour
         | first :: _ => Returned first
         end.
Proof.
  unfold choose_swap_surface_format.
  destruct (first_preferred_format availableFormats) as [f|] eqn:E.
  - apply first_preferred_format_Some in E as [Hin ->]. by rewrite decide_True.
  - apply first_preferred_format_None in E. rewrite decide_False by done.
    by destruct availableFormats.
Qed.

(** X9: [choose_swap_surface_format] returns the B8G8R8A8_SRGB format in
    the sRGB non-linear colour space whenever the surface offers that pair;
    otherwise it returns the first offered format, and on an empty list it
    indexes an empty vector. *)
Theorem choose_swap_surface_format_spec availableFormats :
  choose_swap_surface_format availableFormats =
    if decide ((VK_FORMAT_B8G8R8A8_SRGB, VK_COLOR_SPACE_SRGB_NONLINEAR_KHR) ∈ availableFormats)
    then Returned (VK_FORMAT_B8G8R8A8_SRGB, VK_COLOR_SPACE_SRGB_NONLINEAR_KHR)
    else match availableFormats with
         | [] => UndefinedBehaviour
         | first :: _ => Returned first
         end.
Proof. apply surface_format_cases. Qed.

(** X10: [choose_swap_present_mode] returns MAILBOX exactly when the
    surface offers it and FIFO in every other case, also when FIFO is not
    among the offered modes. *)
Theorem choose_swap_present_mode_spec availablePresentModes :
  choose_swap_present_mode availablePresentModes =
    if decide (VK_PRESENT_MODE_MAILBOX_KHR ∈ availablePresentModes)
    then VK_PRESENT_MODE_MAILBOX_KHR else VK_PRESENT_MODE_FIFO_KHR.
Proof.
  induction availablePresentModes as [|x l IH]; cbn [choose_swap_present_mode].
  - destruct (decide _) as [Hin|]; [by apply elem_of_nil in Hin | done].
  - destruct (Z.eqb_spec x VK_PRESENT_MODE_MAILBOX_KHR) as [Hx|Hne].
    + destruct (decide (VK_PRESENT_MODE_MAILBOX_KHR ∈ x :: l)) as [|Hn]; [exact Hx|].
      destruct Hn. rewrite Hx. left.
    + rewrite IH. destruct (decide (VK_PRESENT_MODE_MAILBOX_KHR ∈ l)) as [Hin|Hn];
        destruct (decide (VK_PRESENT_MODE_MAILBOX_KHR ∈ x :: l)) as [Hin'|Hn']; try done.
      * destruct Hn'. by right.
      * apply elem_of_cons in Hin' as [E|Hin']; [congruence | done].
Qed.

(** The scenarios of the specification. *)
Example choose_format_scenario :
  choose_swap_surface_format [(37, 0); (50, 0)] = Returned (50, 0).
Proof. reflexivity. Qed.

Example choose_present_mode_fifo_only :
  choose_swap_present_mode [VK_PRESENT_MODE_FIFO_KHR] = VK_PRESENT_MODE_FIFO_KHR.
Proof. reflexivity. Qed.

(** *** [create_swap_chain], [create_logical_device] *)

(** X11: for a device that [is_device_suitable] accepts, [create_swap_chain]
    reaches vkCreateSwapchainKHR without indexing an empty format vector and
    without reading an empty optional; the format it passes is one the
    surface offers, the image count and extent are the negotiated ones, and
    the images are shared concurrently between the two queue families
    exactly when the graphics and present families differ. *)
Theorem create_swap_chain_info_suitable device capabilities :
  is_device_suitable device = true ->
  exists create_info graphics present,
    create_swap_chain_info device capabilities = Returned create_info /\
    graphics_family (find_queue_families device) = Some graphics /\
    present_family (find_queue_families device) = Some present /\
    (ci_imageFormat create_info, ci_imageColorSpace create_info) ∈ formats device /\
    ci_minImageCount create_info = create_swap_chain_image_count capabilities /\
    ci_imageExtent create_info = choose_swap_extent capabilities /\
    ci_presentMode create_info = choose_swap_present_mode (present_modes device) /\
    (graphics <> present ->
       ci_imageSharingMode create_info = VK_SHARING_MODE_CONCURRENT /\
       ci_queueFamilyIndexCount create_info = 2 /\
       ci_pQueueFamilyIndices create_info = [graphics; present]) /\
    (graphics = present ->
       ci_imageSharingMode create_info = VK_SHARING_MODE_EXCLUSIVE).
Proof.
  intros Hs. pose proof Hs as (Hg & Hp & _ & Hf & _)%suitable_iff.
  assert (Hc : is_complete (find_queue_families device) = true)
    by (by apply find_queue_families_is_complete).
  apply is_complete_iff in Hc as [[g Eg] [p Ep]].
  unfold create_swap_chain_info. rewrite surface_format_cases, Eg, Ep.
  destruct (formats device) as [|f0 fs] eqn:Ef; [done|].
  assert (Hmode : bool_decide (Some g <> Some p) = bool_decide (g <> p)).
  { apply bool_decide_ext. split; intros H; congruence. }
  rewrite Hmode.
  destruct (decide (_ ∈ f0 :: fs)) as [Hin|Hn]; simpl;
    eexists _, g, p; (split; [reflexivity|]); simpl;
    (destruct (decide (g = p)) as [->|Hne];
     [rewrite bool_decide_eq_false_2 by (intros H; by apply H)
     |rewrite bool_decide_eq_true_2 by done]);
    split_and!; try done; try (intros; congruence); destruct f0; left.
Qed.

Lemma create_swap_chain_info_suitable_witness :
  exists create_info,
    create_swap_chain_info (gpu 1 VK_PHYSICAL_DEVICE_TYPE_DISCRETE_GPU 4096)
      {| minImageCount := 2; maxImageCount := 3; currentExtent := extent 800 600;
         minImageExtent := extent 1 1; maxImageExtent := extent 4096 4096 |}
    = Returned create_info /\
    ci_imageSharingMode create_info = VK_SHARING_MODE_EXCLUSIVE.
Proof.
  destruct (create_swap_chain_info_suitable
              (gpu 1 VK_PHYSICAL_DEVICE_TYPE_DISCRETE_GPU 4096)
              {| minImageCount := 2; maxImageCount := 3; currentExtent := extent 800 600;
                 minImageExtent := extent 1 1; maxImageExtent := extent 4096 4096 |})
    as (ci & g & p & Hci & Hg & Hp & _ & _ & _ & _ & _ & Hex); [reflexivity|].
  exists ci. split; [exact Hci|]. apply Hex.
  vm_compute in Hg, Hp. congruence.
Defined.

Lemma set_insert_elem x y s : x ∈ set_insert y s <-> x = y \/ x ∈ s.
Proof.
  induction s as [|z s IH]; simpl.
  - rewrite list_elem_of_singleton. split; [auto|]. intros [|H]; [done|]. by apply elem_of_nil in H.
  - destruct (Z.ltb_spec y z); [by rewrite elem_of_cons|].
    destruct (Z.eqb_spec y z) as [->|Hne].
    + rewrite elem_of_cons. tauto.
    + rewrite !elem_of_cons, IH. tauto.
Qed.

Lemma set_insert_sorted y s :
  StronglySorted Z.lt s -> StronglySorted Z.lt (set_insert y s).
Proof.
  induction 1 as [|z s Hs IH Hall]; simpl.
  - repeat constructor.
  - destruct (Z.ltb_spec y z).
    + constructor; [by constructor|]. constructor; [done|].
      eapply Forall_impl; [exact Hall|]. simpl. intros. lia.
    + destruct (Z.eqb_spec y z) as [->|Hne]; [by constructor|].
      constructor; [done|]. apply Forall_forall. intros x Hx.
      apply set_insert_elem in Hx as [->|Hx]; [lia|].
      rewrite Forall_forall in Hall. auto.
Qed.

(** X12: for a device that [is_device_suitable] accepts,
    [create_logical_device] requests one queue per distinct queue family:
    the families it lists are exactly the graphics and the present family,
    in increasing order without repetition (one entry when they coincide,
    two otherwise). *)
Theorem queue_create_infos_suitable device :
  is_device_suitable device = true ->
  exists families graphics present,
    queue_create_infos device = Returned families /\
    graphics_family (find_queue_families device) = Some graphics /\
    present_family (find_queue_families device) = Some present /\
    (forall x, x ∈ families <-> x = graphics \/ x = present) /\
    StronglySorted Z.lt families /\
    length families = (if decide (graphics = present) then 1 else 2)%nat.
Proof.
  intros Hs. pose proof Hs as (Hg & Hp & _)%suitable_iff.
  assert (Hc : is_complete (find_queue_families device) = true)
    by (by apply find_queue_families_is_complete).
  apply is_complete_iff in Hc as [[g Eg] [p Ep]].
  unfold queue_create_infos. rewrite Eg, Ep. cbn [and_then value].
  eexists _, g, p. split; [reflexivity|]. split_and!; try done.
  - intros x. rewrite !set_insert_elem. split; [|tauto].
    intros [|[|H]]; auto. by apply elem_of_nil in H.
  - apply set_insert_sorted, set_insert_sorted. constructor.
  - cbn [set_insert]. destruct (Z.ltb_spec p g); [|destruct (Z.eqb_spec p g)].
    + by rewrite decide_False by lia.
    + subst. by rewrite decide_True.
    + by rewrite decide_False by lia.
Qed.

Lemma queue_create_infos_suitable_witness :
  exists families,
    queue_create_infos (gpu 1 VK_PHYSICAL_DEVICE_TYPE_DISCRETE_GPU 4096) = Returned families /\
    StronglySorted Z.lt families.
Proof.
  destruct (queue_create_infos_suitable (gpu 1 VK_PHYSICAL_DEVICE_TYPE_DISCRETE_GPU 4096))
    as (fs & g & p & H1 & _ & _ & _ & H2 & _); [reflexivity|].
  exists fs. by split.
Defined.

(** X13: unless [minImageCount + 1] wraps around, [create_swap_chain]
    never asks for zero images, and the count it asks for is a [uint32_t]. *)
Theorem image_count_positive capabilities :
  U32.ok (minImageCount capabilities) -> U32.ok (maxImageCount capabilities) ->
  minImageCount capabilities < U32.UINT32_MAX ->
  1 <= create_swap_chain_image_count capabilities <= U32.UINT32_MAX.
Proof.
  unfold U32.ok, create_swap_chain_image_count. intros Hmin Hmax Hlt.
  rewrite add_small by lia.
  destruct (Z.ltb_spec 0 (maxImageCount capabilities));
    destruct (Z.ltb_spec (maxImageCount capabilities) (minImageCount capabilities + 1));
    simpl; lia.
Qed.

Lemma image_count_positive_witness :
  1 <= create_swap_chain_image_count
         {| minImageCount := 2; maxImageCount := 0; currentExtent := extent 800 600;
            minImageExtent := extent 1 1; maxImageExtent := extent 4096 4096 |}
    <= U32.UINT32_MAX.
Proof.
  apply image_count_positive; vm_compute; split; congruence || (intros; congruence).
Defined.

End SetupFacts.

Section ConductFacts.
Local Arguments Nat.modulo : simpl never.

(** *** Exceptions *)

Lemma create_sync_objects_from_throws n : forall i,
  throws_only [sync_objects_error] (create_sync_objects_from n i).
Proof.
  induction n as [|n IH]; intros i; [done|].
  cbn. intros r1 s1 m1. destruct (bool_decide (r1 <> VK_SUCCESS)); [by left|].
  cbn. intros r2 s2 m2. destruct (bool_decide (r2 <> VK_SUCCESS)); [by left|].
  cbn. intros r3 f3 m3. destruct (bool_decide (r3 <> VK_SUCCESS)); [by left|].
  apply IH.
Qed.

Lemma create_sync_objects_throws : throws_only [sync_objects_error] create_sync_objects.
Proof.
  unfold create_sync_objects. cbn -[create_sync_objects_from].
  intros m1 m2 m3 m4. apply create_sync_objects_from_throws.
Qed.

Lemma draw_frame_throws : throws_only [submit_error] draw_frame.
Proof.
  unfold draw_frame. cbn. intros m. unfold at_.
  destruct (in_flight_fences_ m !! current_frame_ m) as [fence|]; [|done]. cbn.
  intros r1 o1.
  destruct (image_avaiable_semaphores_ m !! current_frame_ m) as [sem|]; [|done]. cbn.
  intros r2 i.
  destruct (images_in_flight_ m !! i) as [g|]; [|done]. cbn.
  assert (Hrest : throws_only [submit_error]
            (match render_finished_semaphores_ m !! current_frame_ m with
             | Some x => Ret x
             | None => Undefined
             end ≫= fun render_finished =>
             vk (vkResetFences fence);;
             '(r, _) ← vk (vkQueueSubmit graphics_queue_ sem i render_finished fence);
             (if bool_decide (r <> VK_SUCCESS) then Throw submit_error else Ret tt);;
             vk (vkQueuePresentKHR present_queue_ render_finished i);;
             vk (vkQueueWaitIdle present_queue_);;
             modify (fun m => set_current_frame_
                                ((current_frame_ m + 1) mod MAX_FRAMES_IN_FLIGHT) m))).
  { destruct (render_finished_semaphores_ m !! current_frame_ m); [|done].
    cbn. intros r3 o3 r4 o4. destruct (bool_decide (r4 <> VK_SUCCESS)); cbn; [by left|].
    done. }
  destruct (bool_decide (g <> VK_NULL_HANDLE)); cbn.
  - intros r3 o3 m'. apply Hrest.
  - intros m'. apply Hrest.
Qed.

Lemma throws_as_designed_step c c' : throws_as_designed c -> step c c' -> throws_as_designed c'.
Proof.
  unfold throws_as_designed. intros Hinv Hstep.
  destruct Hstep as [c c' Hcpu|w w' ctl0 Hgpu]; [|done].
  destruct Hcpu; simpl in *; auto using draw_frame_throws.
  all: try (destruct ph; simpl in *; first [done | set_solver]).
  all: try by cbn.
Qed.

(** X14: the control thread only ever unwinds to [main] with one of two
    errors: the failure to create the synchronisation objects, or the
    failure of the queue submission in [draw_frame]. *)
Theorem crash_causes n c what :
  reachable n c -> ctl c = Crashed what ->
  what = sync_objects_error \/ what = submit_error.
Proof.
  intros Hr Hctl.
  assert (Hinv : throws_as_designed c).
  { assert (Hgen : forall a b, rtc step a b -> throws_as_designed a -> throws_as_designed b).
    { induction 1; eauto using throws_as_designed_step. }
    eapply Hgen; [exact Hr|]. apply create_sync_objects_throws. }
  unfold throws_as_designed in Hinv. rewrite Hctl in Hinv. set_solver.
Qed.

Lemma crash_causes_witness :
  let c := driven 3 (init_script ++
             [Frame; Reply VK_SUCCESS 0; Reply VK_SUCCESS 0; Reply VK_SUCCESS 0;
              Reply VK_ERROR_DEVICE_LOST 0]) in
  ctl c = Crashed submit_error /\
  (submit_error = sync_objects_error \/ submit_error = submit_error).
Proof.
  intros c. split; [vm_compute; reflexivity|].
  apply (crash_causes 3 c submit_error); [apply driven_reachable | vm_compute; reflexivity].
Defined.

(** *** Vector accesses *)

Lemma shaped_insert_image n m i f :
  shaped n m -> shaped n (set_images_in_flight_ (<[i := f]> (images_in_flight_ m)) m).
Proof.
  unfold shaped. simpl. rewrite length_insert. done.
Qed.

Lemma draw_frame_defined n m : shaped n m -> defined n (shaped n) draw_frame m.
Proof.
  intros Hm. pose proof Hm as (Ha & Hr & Hf & Hi & Hc).
  destruct (lookup_lt_is_Some_2 (in_flight_fences_ m) (current_frame_ m)) as [fence Hfence]; [lia|].
  destruct (lookup_lt_is_Some_2 (image_avaiable_semaphores_ m) (current_frame_ m))
    as [sem Hsem]; [lia|].
  destruct (lookup_lt_is_Some_2 (render_finished_semaphores_ m) (current_frame_ m))
    as [render Hrender]; [lia|].
  unfold draw_frame. cbn. unfold at_. rewrite Hfence. cbn. intros r1 o1 _.
  rewrite Hsem. cbn. intros r2 i Hlt.
  destruct (lookup_lt_is_Some_2 (images_in_flight_ m) i) as [g Hg]; [lia|].
  rewrite Hg. cbn. rewrite Hrender.
  assert (Hend : shaped n
            (set_current_frame_ ((current_frame_ m + 1) mod MAX_FRAMES_IN_FLIGHT)
               (set_images_in_flight_ (<[i := fence]> (images_in_flight_ m)) m))).
  { pose proof (shaped_insert_image n m i fence Hm) as (? & ? & ? & ? & ?).
    unfold shaped. simpl in *. repeat split; try done.
    apply Nat.mod_upper_bound. done. }
  destruct (bool_decide (g <> VK_NULL_HANDLE)); cbn.
  - intros r3 o3 _ r4 o4 _ r5 o5 _.
    destruct (bool_decide (r5 <> VK_SUCCESS)); cbn; [done|].
    intros r6 o6 _ r7 o7 _. exact Hend.
  - intros r4 o4 _ r5 o5 _.
    destruct (bool_decide (r5 <> VK_SUCCESS)); cbn; [done|].
    intros r6 o6 _ r7 o7 _. exact Hend.
Qed.

Lemma create_sync_objects_from_defined n k : forall i m,
  shaped n m -> defined n (shaped n) (create_sync_objects_from k i) m.
Proof.
  induction k as [|k IH]; intros i m Hm; [done|].
  cbn. intros r1 s1 _. destruct (bool_decide (r1 <> VK_SUCCESS)); [done|].
  cbn. intros r2 s2 _. destruct (bool_decide (r2 <> VK_SUCCESS)); [done|].
  cbn. intros r3 f3 _. destruct (bool_decide (r3 <> VK_SUCCESS)); [done|].
  apply IH. destruct Hm as (? & ? & ? & ? & ?).
  unfold shaped. simpl. rewrite !length_insert. done.
Qed.

Lemma create_sync_objects_defined n m :
  swap_chain_images_ m = n -> current_frame_ m < MAX_FRAMES_IN_FLIGHT ->
  defined n (shaped n) create_sync_objects m.
Proof.
  intros Hn Hc. unfold create_sync_objects. cbn -[create_sync_objects_from].
  apply create_sync_objects_from_defined.
  unfold shaped. simpl. rewrite !length_resize. done.
Qed.

Lemma api_swapchain_images d c r out d' :
  api d c r out d' -> swapchain_images d' = swapchain_images d.
Proof. by destruct 1. Qed.

Lemma api_acquire_range d sem r out d' :
  api d (vkAcquireNextImageKHR sem) r out d' ->
  r = VK_SUCCESS \/ r = VK_SUBOPTIMAL_KHR -> out < swapchain_images d.
Proof.
  intros Hapi Hr. inversion Hapi; [done|]. by destruct Hr.
Qed.

Lemma acquisitions_succeeded_snoc h e :
  acquisitions_succeeded (h ++ [e]) -> acquisitions_succeeded h.
Proof.
  intros H sem r out Hin. apply (H sem r out). apply elem_of_app. by left.
Qed.

Lemma in_range_step n c c' : in_range n c -> step c c' -> in_range n c'.
Proof.
  intros [Hn Hd] Hstep. destruct Hstep as [c c' Hcpu|w w' ctl0 Hgpu].
  - destruct Hcpu; simpl in *.
    + split; simpl; [by erewrite api_swapchain_images|].
      intros Has. apply Hd; [by eapply acquisitions_succeeded_snoc|].
      destruct c; simpl; try done. subst n.
      eapply api_acquire_range; [done|].
      apply (Has semaphore r out). apply elem_of_app. right. by apply list_elem_of_singleton.
    + by split.
    + by split.
    + split; [done|]. intros Has. specialize (Hd Has). destruct ph; simpl in *; done.
    + by split.
    + split; [done|]. simpl. intros Has. apply draw_frame_defined. by apply Hd.
    + split; [done|]. simpl. intros Has. by cbn.
  - destruct Hgpu. simpl in *. split; [done|]. simpl.
    intros Has. apply Hd. by eapply acquisitions_succeeded_snoc.
Qed.

Lemma reachable_in_range n c : reachable n c -> in_range n c.
Proof.
  unfold reachable. intros Hr.
  assert (Hgen : forall a b, rtc step a b -> in_range n a -> in_range n b).
  { induction 1; eauto using in_range_step. }
  eapply Hgen; [done|]. split; [done|]. intros _. simpl.
  apply create_sync_objects_defined; [done|]. simpl. unfold MAX_FRAMES_IN_FLIGHT. lia.
Qed.

(** X15: as long as every image acquisition has succeeded, the control
    thread never indexes a vector out of range; at each test of the loop of
    [main_loop] the three per-frame vectors have [MAX_FRAMES_IN_FLIGHT]
    elements, [images_in_flight_] has one per swapchain image and
    [current_frame_] designates a slot. *)
Theorem vector_accesses_in_range n c :
  reachable n c -> acquisitions_succeeded (history (now c)) ->
  (forall ph, ctl c <> Run ph Undefined) /\
  (ctl c = Loop -> shaped n (mem (now c))).
Proof.
  intros Hr Has. destruct (reachable_in_range n c Hr) as [_ Hd].
  specialize (Hd Has). split.
  - intros ph Hctl. rewrite Hctl in Hd. exact Hd.
  - intros Hctl. rewrite Hctl in Hd. exact Hd.
Qed.

Lemma vector_accesses_in_range_witness :
  let c := driven 3 (init_script ++ frame_script 2) in
  (forall ph, ctl c <> Run ph Undefined) /\
  (ctl c = Loop -> shaped 3 (mem (now c))).
Proof.
  intros c. apply (vector_accesses_in_range 3 c); [apply driven_reachable|].
  intros sem r out Hin.
  assert (Hr : r = VK_SUCCESS); [|by left].
  set (h := history (now c)) in Hin. vm_compute in h. subst h.
  repeat (apply elem_of_cons in Hin as [Hin|Hin]; [congruence|]).
  by apply elem_of_nil in Hin.
Defined.

(** The acquisition is what the guarantee rests on: a failed one leaves
    [image_index] unwritten, and the frame goes on to index
    [images_in_flight_] with it. *)
Example failed_acquisition_indexes_out_of_range :
  ctl (driven 3 (init_script ++
         [Frame; Reply VK_SUCCESS 0; Reply VK_ERROR_OUT_OF_DATE_KHR 7]))
  = Run InFrame Undefined.
Proof. vm_compute. reflexivity. Qed.

(** *** Leaving the loop *)

Lemma draining_step c c' : draining c -> step c c' -> draining c'.
Proof.
  unfold draining. intros Hinv Hstep.
  destruct Hstep as [c c' Hcpu|w w' ctl0 Hgpu].
  - destruct Hcpu; simpl in *; try done.
    + destruct ph; try done. destruct Hinv as [Hp|[Hp _]]; [|done].
      unfold main_loop_exit in Hp. cbn in Hp. injection Hp as -> ->.
      right. split; [done|]. by inversion H.
    + destruct ph; try done. by destruct Hinv as [Hp|[Hp _]].
    + destruct ph; try done. by destruct Hinv as [Hp|[Hp _]].
    + destruct ph; simpl; try done. by destruct Hinv as [Hp|[_ Hp]].
    + by left.
  - destruct Hgpu as [h d m before f i after Hp]. simpl in *.
    destruct ctl0 as [[| |] p| | |]; try done.
    + destruct Hinv as [?|[? Hnil]]; [by left|].
      rewrite Hnil in Hp. by destruct before.
    + rewrite Hinv in Hp. by destruct before.
Qed.

Lemma reachable_draining n c : reachable n c -> draining c.
Proof.
  unfold reachable. intros Hr.
  assert (Hgen : forall a b, rtc step a b -> draining a -> draining b).
  { induction 1; eauto using draining_step. }
  eapply Hgen; [done|]. done.
Qed.

(** X16: [main_loop] returns only on an idle device: when the program has
    exited normally no batch is pending, and every batch the queue accepted
    has completed. *)
Theorem exit_after_idle n c :
  reachable n c -> ctl c = Exited ->
  pending (dev (now c)) = [] /\
  completed (history (now c)) = submitted (history (now c)).
Proof.
  intros Hr Hctl. pose proof (reachable_draining n c Hr) as Hd.
  unfold draining in Hd. rewrite Hctl in Hd. split; [done|].
  destruct (reachable_invariant _ _ Hr) as [Hc _].
  rewrite (pending_count _ Hc), Hd. simpl. lia.
Qed.

Lemma exit_after_idle_witness :
  let c := driven 3 (init_script ++ frame_script 0 ++ [Complete 0; Close; Reply VK_SUCCESS 0]) in
  submitted (history (now c)) = 1 /\
  pending (dev (now c)) = [] /\
  completed (history (now c)) = submitted (history (now c)).
Proof.
  intros c. split; [vm_compute; reflexivity|].
  apply (exit_after_idle 3 c); [apply driven_reachable | vm_compute; reflexivity].
Defined.

(** With a batch still pending the wait for the idle device does not return. *)
Example exit_waits_for_pending_batch :
  let c := driven 3 (init_script ++ frame_script 0 ++ [Close]) in
  move1 (Reply VK_SUCCESS 0) c = None /\
  exists c', move1 (Complete 0) c = Some c' /\ is_Some (move1 (Reply VK_SUCCESS 0) c').
Proof. vm_compute. split; [done|]. eexists. split; [done|]. by eexists. Qed.

(** *** What a submission finds *)

Lemma snoc_neq {A} (l : list A) (x : A) : l <> l ++ [x].
Proof.
  intros H. apply (f_equal length) in H. rewrite length_app in H. simpl in H. lia.
Qed.

Lemma step_submit_inv c c' q wait i signal f out :
  step c c' ->
  history (now c') = history (now c) ++ [EvCall (vkQueueSubmit q wait i signal f) VK_SUCCESS out] ->
  dev (now c') = set_pending (pending (dev (now c)) ++ [(f, i)]) (dev (now c)) /\
  mem (now c') = mem (now c).
Proof.
  intros Hstep Hh. destruct Hstep as [c c' Hcpu|w w' ctl0 Hgpu].
  - destruct Hcpu; simpl in *; try by apply snoc_neq in Hh.
    apply app_inj_tail in Hh as [_ Hev]. injection Hev as -> -> ->.
    split; [|done]. by inversion H.
  - destruct Hgpu. simpl in *. apply app_inj_tail in Hh as [_ Hev]. discriminate Hev.
Qed.

(** X17: every submission the queue accepts is made with a fence that is
    unsignaled and signalled by no pending batch, for an image that no
    pending batch renders to and whose entry of [images_in_flight_] holds
    that fence. *)
Theorem submit_finds_fence_and_image_free n c c' q wait i signal f out :
  reachable n c -> step c c' ->
  history (now c') = history (now c) ++ [EvCall (vkQueueSubmit q wait i signal f) VK_SUCCESS out] ->
  fences (dev (now c)) !! f = Some false /\
  (f ∉ (pending (dev (now c))).*1) /\
  (i ∉ (pending (dev (now c))).*2) /\
  images_in_flight_ (mem (now c)) !! i = Some f.
Proof.
  intros Hr Hstep Hh.
  destruct (step_submit_inv _ _ _ _ _ _ _ _ Hstep Hh) as [Hdev Hmem].
  assert (Hr' : reachable n c') by (eapply rtc_r; [exact Hr|exact Hstep]).
  destruct (reachable_invariant _ _ Hr') as [Hc _].
  pose proof (pending_fences_distinct _ Hc) as Hnf.
  pose proof (pending_images_distinct _ Hc) as Hni.
  destruct (pending_owned _ Hc f i) as [Hf Hi].
  { rewrite Hdev. simpl. apply elem_of_app. right. by apply list_elem_of_singleton. }
  rewrite Hdev in Hnf, Hni, Hf. rewrite Hmem in Hi. simpl in *.
  rewrite fmap_app in Hnf, Hni. simpl in *.
  apply NoDup_app in Hnf as (_ & Hnf & _). apply NoDup_app in Hni as (_ & Hni & _).
  repeat split; try done.
  - intros Hin. apply (Hnf f Hin). by apply list_elem_of_singleton.
  - intros Hin. apply (Hni i Hin). by apply list_elem_of_singleton.
Qed.

Lemma submit_finds_fence_and_image_free_witness :
  let c := driven 3 (init_script ++ frame_script 0 ++
             [Frame; Reply VK_SUCCESS 0; Reply VK_SUCCESS 1; Reply VK_SUCCESS 0]) in
  pending (dev (now c)) = [(1, 0)] /\
  fences (dev (now c)) !! 2 = Some false /\
  (2 ∉ (pending (dev (now c))).*1) /\
  (1 ∉ (pending (dev (now c))).*2) /\
  images_in_flight_ (mem (now c)) !! 1 = Some 2.
Proof.
  intros c. split; [vm_compute; reflexivity|].
  apply (submit_finds_fence_and_image_free 3 c
           (default c (move1 (Reply VK_SUCCESS 0) c)) graphics_queue_ 3 1 4 2 0).
  - apply driven_reachable.
  - apply (move1_sound (Reply VK_SUCCESS 0)). vm_compute. reflexivity.
  - vm_compute. reflexivity.
Defined.

(** *** One call of each member function *)

(** X18: a frame that runs to its end makes these calls, in this order and
    with these arguments: the batch waits on the slot's image-available
    semaphore and signals the slot's render-finished semaphore and fence,
    the presentation waits on that render-finished semaphore. Of the
    members it changes the acquired image's entry of [images_in_flight_],
    which receives the slot's fence, and [current_frame_], which moves to
    the next slot cyclically. *)
Theorem draw_frame_effect m fence image_avaiable render_finished image_fence
    w r_acquire i iw rs out p q :
  in_flight_fences_ m !! current_frame_ m = Some fence ->
  image_avaiable_semaphores_ m !! current_frame_ m = Some image_avaiable ->
  render_finished_semaphores_ m !! current_frame_ m = Some render_finished ->
  images_in_flight_ m !! i = Some image_fence ->
  let image_wait := if decide (image_fence = VK_NULL_HANDLE) then [] else [iw] in
  let replies := [w; (r_acquire, i)] ++ image_wait ++ [rs; (VK_SUCCESS, out); p; q] in
  run draw_frame m replies =
    ([vkWaitForFences fence; vkAcquireNextImageKHR image_avaiable] ++
     (if decide (image_fence = VK_NULL_HANDLE) then [] else [vkWaitForFences image_fence]) ++
     [vkResetFences fence;
      vkQueueSubmit graphics_queue_ image_avaiable i render_finished fence;
      vkQueuePresentKHR present_queue_ render_finished i;
      vkQueueWaitIdle present_queue_],
     set_current_frame_ ((current_frame_ m + 1) mod MAX_FRAMES_IN_FLIGHT)
       (set_images_in_flight_ (<[i := fence]> (images_in_flight_ m)) m),
     Some (Returned tt)).
Proof.
  intros Hf Ha Hr Hi. destruct w, iw, rs, p, q.
  unfold draw_frame. cbn. unfold at_. rewrite Hf. cbn. rewrite Ha. cbn.
  rewrite Hi. cbn. rewrite Hr.
  destruct (decide (image_fence = VK_NULL_HANDLE)) as [->|Hnn].
  - cbn. done.
  - rewrite bool_decide_eq_true_2 by done. cbn. done.
Qed.

Lemma draw_frame_effect_witness :
  run draw_frame (set_current_frame_ 1 (set_images_in_flight_ [0; 1; 0] slots_ready))
      [(VK_SUCCESS, 0); (VK_SUCCESS, 1); (VK_SUCCESS, 0); (VK_SUCCESS, 0);
       (VK_SUCCESS, 0); (VK_SUCCESS, 0); (VK_SUCCESS, 0)]
  = ([vkWaitForFences 2; vkAcquireNextImageKHR 3; vkWaitForFences 1; vkResetFences 2;
      vkQueueSubmit graphics_queue_ 3 1 4 2; vkQueuePresentKHR present_queue_ 4 1;
      vkQueueWaitIdle present_queue_],
     set_current_frame_ 0 (set_images_in_flight_ [0; 2; 0] slots_ready),
     Some (Returned tt)).
Proof.
  apply (draw_frame_effect (set_current_frame_ 1 (set_images_in_flight_ [0; 1; 0] slots_ready))
           2 3 4 1 (VK_SUCCESS, 0) VK_SUCCESS 1 (VK_SUCCESS, 0) (VK_SUCCESS, 0) 0
           (VK_SUCCESS, 0) (VK_SUCCESS, 0)); reflexivity.
Defined.

(** X19: when the queue refuses the batch, [draw_frame] throws at once: it
    does not present, does not wait for the queue, and leaves
    [current_frame_] where it was, while the acquired image stays recorded
    under the slot's fence, which has been reset. *)
Theorem draw_frame_submit_refused m fence image_avaiable render_finished image_fence
    w r_acquire i iw rs r out rest :
  in_flight_fences_ m !! current_frame_ m = Some fence ->
  image_avaiable_semaphores_ m !! current_frame_ m = Some image_avaiable ->
  render_finished_semaphores_ m !! current_frame_ m = Some render_finished ->
  images_in_flight_ m !! i = Some image_fence ->
  r <> VK_SUCCESS ->
  let image_wait := if decide (image_fence = VK_NULL_HANDLE) then [] else [iw] in
  let replies := [w; (r_acquire, i)] ++ image_wait ++ [rs; (r, out)] ++ rest in
  run draw_frame m replies =
    ([vkWaitForFences fence; vkAcquireNextImageKHR image_avaiable] ++
     (if decide (image_fence = VK_NULL_HANDLE) then [] else [vkWaitForFences image_fence]) ++
     [vkResetFences fence;
      vkQueueSubmit graphics_queue_ image_avaiable i render_finished fence],
     set_images_in_flight_ (<[i := fence]> (images_in_flight_ m)) m,
     Some (Thrown submit_error)).
Proof.
  intros Hf Ha Hr Hi Hfail. destruct w, iw, rs.
  destruct r; [done|..].
  all: unfold draw_frame; cbn; unfold at_; rewrite Hf; cbn; rewrite Ha; cbn.
  all: rewrite Hi; cbn; rewrite Hr.
  all: destruct (decide (image_fence = VK_NULL_HANDLE)) as [->|Hnn];
    [cbn; done | rewrite bool_decide_eq_true_2 by done; cbn; done].
Qed.

Lemma draw_frame_submit_refused_witness :
  run draw_frame slots_ready
      [(VK_SUCCESS, 0); (VK_SUBOPTIMAL_KHR, 2); (VK_SUCCESS, 0);
       (VK_ERROR_DEVICE_LOST, 0); (VK_SUCCESS, 0); (VK_SUCCESS, 0)]
  = ([vkWaitForFences 1; vkAcquireNextImageKHR 1; vkResetFences 1;
      vkQueueSubmit graphics_queue_ 1 2 2 1],
     set_images_in_flight_ [0; 0; 1] slots_ready,
     Some (Thrown submit_error)).
Proof.
  apply (draw_frame_submit_refused slots_ready 1 1 2 0 (VK_SUCCESS, 0) VK_SUBOPTIMAL_KHR 2
           (VK_SUCCESS, 0) (VK_SUCCESS, 0) VK_ERROR_DEVICE_LOST 0
           [(VK_SUCCESS, 0); (VK_SUCCESS, 0)]); done.
Defined.

(** X20: when its six creations succeed, [create_sync_objects] makes them
    slot by slot (two semaphores, then a fence created signaled) and leaves
    each per-frame vector holding exactly the handles returned for it,
    whatever the vectors held before; [images_in_flight_] is resized to the
    number of swapchain images. *)
Theorem create_sync_objects_effect m a0 r0 f0 a1 r1 f1 :
  run create_sync_objects m
      [(VK_SUCCESS, a0); (VK_SUCCESS, r0); (VK_SUCCESS, f0);
       (VK_SUCCESS, a1); (VK_SUCCESS, r1); (VK_SUCCESS, f1)]
  = ([vkCreateSemaphore; vkCreateSemaphore; vkCreateFence VK_FENCE_CREATE_SIGNALED_BIT;
      vkCreateSemaphore; vkCreateSemaphore; vkCreateFence VK_FENCE_CREATE_SIGNALED_BIT],
     {| swap_chain_images_ := swap_chain_images_ m;
        image_avaiable_semaphores_ := [a0; a1];
        render_finished_semaphores_ := [r0; r1];
        in_flight_fences_ := [f0; f1];
        images_in_flight_ :=
          resize (swap_chain_images_ m) VK_NULL_HANDLE (images_in_flight_ m);
        current_frame_ := current_frame_ m |},
     Some (Returned tt)).
Proof.
  destruct m as [n av rf fl im cur].
  destruct av as [|? [|? [|? ?]]], rf as [|? [|? [|? ?]]], fl as [|? [|? [|? ?]]];
    reflexivity.
Qed.

(** X21: the first creation that fails ends [create_sync_objects] with the
    exception; no further object is created. *)
Theorem create_sync_objects_first_failure m before r out rest :
  length before < 3 * MAX_FRAMES_IN_FLIGHT ->
  Forall (fun reply => reply.1 = VK_SUCCESS) before ->
  r <> VK_SUCCESS ->
  let result := run create_sync_objects m (before ++ (r, out) :: rest) in
  result.2 = Some (Thrown sync_objects_error) /\
  length result.1.1 = S (length before).
Proof.
  intros Hlen Hok Hr. unfold MAX_FRAMES_IN_FLIGHT in Hlen.
  destruct r; [done|..].
  all: do 6 (destruct before as [|[? ?] before];
             [ done
             | apply Forall_cons in Hok as [Heq Hok]; simpl in Heq; subst ]).
  all: simpl in Hlen; lia.
Qed.

Lemma create_sync_objects_first_failure_witness :
  let result := run create_sync_objects slots_ready
      [(VK_SUCCESS, 5); (VK_SUCCESS, 6); (VK_SUCCESS, 7); (VK_SUCCESS, 8);
       (VK_ERROR_OUT_OF_DEVICE_MEMORY, 0); (VK_SUCCESS, 9)] in
  result.2 = Some (Thrown sync_objects_error) /\
  length result.1.1 = 5.
Proof.
  apply (create_sync_objects_first_failure slots_ready
           [(VK_SUCCESS, 5); (VK_SUCCESS, 6); (VK_SUCCESS, 7); (VK_SUCCESS, 8)]
           VK_ERROR_OUT_OF_DEVICE_MEMORY 0 [(VK_SUCCESS, 9)]).
  - unfold MAX_FRAMES_IN_FLIGHT. simpl. lia.
  - repeat constructor.
  - done.
Defined.

End ConductFacts.

Section FirstUse.
Local Arguments Nat.modulo : simpl never.

Lemma draw_frame_returns_shaped n m : shaped n m -> returns_with (shaped n) draw_frame m.
Proof.
  intros Hm. pose proof Hm as (Ha & Hr & Hf & Hi & Hc).
  destruct (lookup_lt_is_Some_2 (in_flight_fences_ m) (current_frame_ m)) as [fence Hfence]; [lia|].
  destruct (lookup_lt_is_Some_2 (image_avaiable_semaphores_ m) (current_frame_ m))
    as [sem Hsem]; [lia|].
  destruct (lookup_lt_is_Some_2 (render_finished_semaphores_ m) (current_frame_ m))
    as [render Hrender]; [lia|].
  unfold draw_frame. cbn. unfold at_. rewrite Hfence. cbn. intros r1 o1.
  rewrite Hsem. cbn. intros r2 i.
  destruct (images_in_flight_ m !! i) as [g|]; cbn; [|done].
  rewrite Hrender.
  assert (Hend : shaped n
            (set_current_frame_ ((current_frame_ m + 1) mod MAX_FRAMES_IN_FLIGHT)
               (set_images_in_flight_ (<[i := fence]> (images_in_flight_ m)) m))).
  { unfold shaped. simpl. rewrite length_insert. repeat split; try done.
    apply Nat.mod_upper_bound. done. }
  destruct (bool_decide (g <> VK_NULL_HANDLE)); cbn.
  - intros r3 o3 r4 o4 r5 o5.
    destruct (bool_decide (r5 <> VK_SUCCESS)); cbn; [done|].
    intros r6 o6 r7 o7. exact Hend.
  - intros r4 o4 r5 o5.
    destruct (bool_decide (r5 <> VK_SUCCESS)); cbn; [done|].
    intros r6 o6 r7 o7. exact Hend.
Qed.

Lemma create_sync_objects_from_returns_shaped n k : forall i m,
  shaped n m -> returns_with (shaped n) (create_sync_objects_from k i) m.
Proof.
  induction k as [|k IH]; intros i m Hm; [done|].
  cbn. intros r1 s1. destruct (bool_decide (r1 <> VK_SUCCESS)); [done|].
  cbn. intros r2 s2. destruct (bool_decide (r2 <> VK_SUCCESS)); [done|].
  cbn. intros r3 f3. destruct (bool_decide (r3 <> VK_SUCCESS)); [done|].
  apply IH. destruct Hm as (? & ? & ? & ? & ?).
  unfold shaped. simpl. rewrite !length_insert. done.
Qed.

Lemma create_sync_objects_returns_shaped n m :
  swap_chain_images_ m = n -> current_frame_ m < MAX_FRAMES_IN_FLIGHT ->
  returns_with (shaped n) create_sync_objects m.
Proof.
  intros Hn Hc. unfold create_sync_objects. cbn -[create_sync_objects_from].
  apply create_sync_objects_from_returns_shaped.
  unfold shaped. simpl. rewrite !length_resize. done.
Qed.

Lemma sized_step n c c' : sized n c -> step c c' -> sized n c'.
Proof.
  intros [Hn Hd] Hstep. destruct Hstep as [c c' Hcpu|w w' ctl0 Hgpu].
  - destruct Hcpu; simpl in *.
    + split; simpl; [by erewrite api_swapchain_images|]. apply Hd.
    + by split.
    + by split.
    + split; [done|]. destruct ph; simpl in *; done.
    + by split.
    + split; [done|]. simpl. by apply draw_frame_returns_shaped.
    + split; [done|]. simpl. by cbn.
  - destruct Hgpu. simpl in *. by split.
Qed.

Lemma reachable_sized n c : reachable n c -> sized n c.
Proof.
  unfold reachable. intros Hr.
  assert (Hgen : forall a b, rtc step a b -> sized n a -> sized n b).
  { induction 1; eauto using sized_step. }
  eapply Hgen; [done|]. split; [done|]. simpl.
  apply create_sync_objects_returns_shaped; [done|]. simpl. unfold MAX_FRAMES_IN_FLIGHT. lia.
Qed.

(** A frame that starts with its slot's fence signaled and is handed an
    image that has no fence recorded goes from the loop test to its
    submission through steps of the control thread alone. *)
Lemma fresh_image_frame n h d m f i :
  shaped n m -> swapchain_images d = n -> i < n ->
  in_flight_fences_ m !! current_frame_ m = Some f ->
  fences d !! f = Some true ->
  images_in_flight_ m !! i = Some VK_NULL_HANDLE ->
  exists image_avaiable render_finished c',
    image_avaiable_semaphores_ m !! current_frame_ m = Some image_avaiable /\
    render_finished_semaphores_ m !! current_frame_ m = Some render_finished /\
    rtc cpu_step {| now := {| history := h; dev := d; mem := m |}; ctl := Loop |} c' /\
    history (now c') =
      h ++ [EvCall (vkWaitForFences f) VK_SUCCESS 0;
            EvCall (vkAcquireNextImageKHR image_avaiable) VK_SUCCESS i;
            EvCall (vkResetFences f) VK_SUCCESS 0;
            EvCall (vkQueueSubmit graphics_queue_ image_avaiable i render_finished f)
                   VK_SUCCESS 0].
Proof.
  intros (Ha & Hr & _ & _ & Hc) Hn Hi Hf Hsig Hg.
  destruct (lookup_lt_is_Some_2 (image_avaiable_semaphores_ m) (current_frame_ m))
    as [sem Hsem]; [lia|].
  destruct (lookup_lt_is_Some_2 (render_finished_semaphores_ m) (current_frame_ m))
    as [render Hrender]; [lia|].
  exists sem, render. eexists. split; [done|]. split; [done|]. split.
  - eapply rtc_l; [apply cpu_frame|].
    eapply rtc_l; [unfold draw_frame; cbn; apply cpu_read|].
    cbn. unfold at_. rewrite Hf. cbn.
    eapply rtc_l; [apply cpu_call; by apply (api_wait_for_fences _ _ 0)|].
    cbn. rewrite Hsem. cbn.
    eapply rtc_l; [apply cpu_call; apply (api_acquire _ _ VK_SUCCESS i); [by left|lia]|].
    cbn. rewrite Hg. cbn.
    eapply rtc_l; [apply cpu_read|]. cbn.
    eapply rtc_l; [apply cpu_store|]. cbn. rewrite Hrender. cbn.
    eapply rtc_l; [apply cpu_call; by apply (api_reset_fences _ _ true 0)|].
    cbn.
    eapply rtc_l; [apply cpu_call; apply (api_queue_submit _ _ _ _ _ _ 0)|].
    apply rtc_refl.
  - simpl. by rewrite <- !app_assoc.
Qed.

(** C10: in every reachable configuration a fence that was never reset is
    signaled (fences are created signaled) and an image that no acquisition
    has returned yet has no fence recorded (the entries start as
    [VK_NULL_HANDLE]). At the loop test the slot of the next frame holds an
    existing fence, so that on the first use of the slot the frame's first
    wait returns at once, without any step of the GPU; and
    [images_in_flight_] has one entry per swapchain image, so that each
    image not acquired before has an entry, which holds [VK_NULL_HANDLE],
    and the frame that is handed such an image makes no wait for it: with
    its slot's fence signaled it goes from the acquisition to the reset of
    the fence and the submission without any step of the GPU. *)
Theorem first_use_does_not_block n c :
  reachable n c ->
  (forall f, is_Some (fences (dev (now c)) !! f) -> ~ was_reset (history (now c)) f ->
     fences (dev (now c)) !! f = Some true) /\
  (forall i g, images_in_flight_ (mem (now c)) !! i = Some g ->
     ~ was_acquired (history (now c)) i -> g = VK_NULL_HANDLE) /\
  (ctl c = Loop ->
   exists f, in_flight_fences_ (mem (now c)) !! current_frame_ (mem (now c)) = Some f /\
     is_Some (fences (dev (now c)) !! f) /\
     (~ was_reset (history (now c)) f ->
      exists c', rtc cpu_step c c' /\
        history (now c') = history (now c) ++ [EvCall (vkWaitForFences f) VK_SUCCESS 0])) /\
  (ctl c = Loop ->
   length (images_in_flight_ (mem (now c))) = n /\
   forall i, i < n -> ~ was_acquired (history (now c)) i ->
     images_in_flight_ (mem (now c)) !! i = Some VK_NULL_HANDLE /\
     forall f,
       in_flight_fences_ (mem (now c)) !! current_frame_ (mem (now c)) = Some f ->
       fences (dev (now c)) !! f = Some true ->
       exists image_avaiable render_finished c',
         image_avaiable_semaphores_ (mem (now c)) !! current_frame_ (mem (now c))
           = Some image_avaiable /\
         render_finished_semaphores_ (mem (now c)) !! current_frame_ (mem (now c))
           = Some render_finished /\
         rtc cpu_step c c' /\
         history (now c') =
           history (now c) ++
             [EvCall (vkWaitForFences f) VK_SUCCESS 0;
              EvCall (vkAcquireNextImageKHR image_avaiable) VK_SUCCESS i;
              EvCall (vkResetFences f) VK_SUCCESS 0;
              EvCall (vkQueueSubmit graphics_queue_ image_avaiable i render_finished f)
                     VK_SUCCESS 0]).
Proof.
  intros Hr. destruct (reachable_invariant _ _ Hr) as [Hc Hs].
  destruct (reachable_sized _ _ Hr) as [Hn Hsized].
  assert (H1 : forall f, is_Some (fences (dev (now c)) !! f) ->
            ~ was_reset (history (now c)) f -> fences (dev (now c)) !! f = Some true).
  { intros f [b Hb] Hnr. destruct b; [done|].
    destruct Hnr. by apply (unsignaled_reset _ Hc). }
  assert (H2 : forall i g, images_in_flight_ (mem (now c)) !! i = Some g ->
            ~ was_acquired (history (now c)) i -> g = VK_NULL_HANDLE).
  { intros i g Hi Hna. destruct (decide (g = VK_NULL_HANDLE)) as [|Hg]; [done|].
    destruct Hna. by apply (owned_acquired _ Hc i g). }
  split; [exact H1|]. split; [exact H2|]. split.
  - intros Hctl. destruct c as [[h d m] ctl0]. simpl in *. subst ctl0.
    destruct Hs as [Hcur Hslots]. simpl in *.
    destruct (Hslots _ Hcur) as (f & Hf & Hsome).
    exists f. split; [done|]. split; [done|].
    intros Hnr. specialize (H1 f Hsome Hnr).
    eexists. split.
    + eapply rtc_l; [apply cpu_frame|].
      eapply rtc_l; [unfold draw_frame; cbn; apply cpu_read|].
      cbn. unfold at_. rewrite Hf. cbn.
      eapply rtc_l; [apply cpu_call; by apply (api_wait_for_fences _ _ 0)|].
      apply rtc_refl.
    + reflexivity.
  - intros Hctl. destruct c as [[h d m] ctl0]. simpl in *. subst ctl0.
    pose proof Hsized as (_ & _ & _ & Hlen & _). split; [exact Hlen|].
    intros i Hi Hna.
    destruct (lookup_lt_is_Some_2 (images_in_flight_ m) i) as [g Hg]; [lia|].
    rewrite (H2 i g Hg Hna) in Hg. split; [exact Hg|].
    intros f Hf Hsig. by eapply fresh_image_frame.
Qed.

Lemma first_use_does_not_block_witness :
  let c := driven 3 (init_script ++ frame_script 0) in
  (exists f, in_flight_fences_ (mem (now c)) !! current_frame_ (mem (now c)) = Some f /\
     is_Some (fences (dev (now c)) !! f) /\
     (~ was_reset (history (now c)) f ->
      exists c', rtc cpu_step c c' /\
        history (now c') = history (now c) ++ [EvCall (vkWaitForFences f) VK_SUCCESS 0])) /\
  length (images_in_flight_ (mem (now c))) = 3 /\
  images_in_flight_ (mem (now c)) !! 1 = Some VK_NULL_HANDLE /\
  exists c', rtc cpu_step c c' /\
    history (now c') =
      history (now c) ++
        [EvCall (vkWaitForFences 2) VK_SUCCESS 0;
         EvCall (vkAcquireNextImageKHR 3) VK_SUCCESS 1;
         EvCall (vkResetFences 2) VK_SUCCESS 0;
         EvCall (vkQueueSubmit graphics_queue_ 3 1 4 2) VK_SUCCESS 0].
Proof.
  intros c.
  destruct (first_use_does_not_block 3 c (driven_reachable 3 _)) as (_ & _ & H3 & H4).
  split; [apply H3; vm_compute; reflexivity|].
  destruct H4 as [Hlen Himg]; [vm_compute; reflexivity|]. split; [exact Hlen|].
  destruct (Himg 1) as [Hnull Hframe].
  - lia.
  - intros (sem & r & Hin).
    set (h := history (now c)) in Hin. vm_compute in h. subst h.
    repeat (apply elem_of_cons in Hin as [Hin|Hin]; [congruence|]).
    by apply elem_of_nil in Hin.
  - split; [exact Hnull|].
    destruct (Hframe 2) as (a & r & c' & Ha & Hr & Hsteps & Hh).
    + vm_compute. reflexivity.
    + vm_compute. reflexivity.
    + assert (a = 3) as -> by (vm_compute in Ha; congruence).
      assert (r = 4) as -> by (vm_compute in Hr; congruence).
      by exists c'.
Defined.

End FirstUse.
